(** * gravitational/version: the [linkflags] command

    A shallow embedding of [cmd/linkflags/main.go] and the properties of
    its version-derivation and flag-formatting pipeline.

    Go strings are byte sequences; they are modelled as [list ascii].
    The Go [int] is taken to be 64 bits wide (amd64, arm64). *)

From Stdlib Require Import Ascii String List ZArith Lia Bool Arith.
Import ListNotations.

Local Open Scope list_scope.

(** ** Byte strings *)

Definition bytes := list ascii.

(** [b "..."] is the Go string literal ["..."]. *)
Definition b (s : string) : bytes := list_ascii_of_string s.

Definition nl : ascii := ascii_of_nat 10.

Definition bytes_eqb (x y : bytes) : bool :=
  if list_eq_dec ascii_dec x y then true else false.

(** [s == ""] *)
Definition is_empty (s : bytes) : bool :=
  match s with [] => true | _ :: _ => false end.

(** [src[i:j]] *)
Definition slice (src : bytes) (i j : nat) : bytes :=
  firstn (j - i) (skipn i src).

(** ** The fragment of Go's [regexp] syntax used by the two patterns

    Go's [regexp] returns the match that begins leftmost in the input
    and, among those, the one a backtracking search finds first.  The
    matcher below enumerates the outcomes of that backtracking search in
    priority order; the first outcome is the match Go reports.

    Go matches code points where this matcher reads bytes.  The groups
    of the two patterns begin and end next to ASCII bytes, which UTF-8
    never uses inside a longer sequence, so their locations agree; only
    the extent of the whole match of [goVersionPattern], which the
    program does not use, can differ on text that is not ASCII. *)

Inductive regex : Type :=
| Lit (c : ascii)                (* a literal byte *)
| Cls (p : ascii -> bool)        (* a character class *)
| Cat (r1 r2 : regex)            (* r1 r2 *)
| Star (r : regex)               (* r*, greedy *)
| Cap (i : nat) (r : regex)      (* the i-th capturing group (r) *)
| EndText.                       (* $ without the m flag *)

(** [r+] and [r{1,}] *)
Definition Plus (r : regex) : regex := Cat r (Star r).

(** [r{n}] *)
Fixpoint Times (n : nat) (r : regex) : regex :=
  match n with
  | O => Star (Cls (fun _ => false))
  | S O => r
  | S n' => Cat r (Times n' r)
  end.

Definition in_range (lo hi c : ascii) : bool :=
  ((nat_of_ascii lo <=? nat_of_ascii c) && (nat_of_ascii c <=? nat_of_ascii hi))%nat.

(** [[0-9]] and [\d] (Go's [\d] is ASCII only) *)
Definition is_digit (c : ascii) : bool := in_range "0" "9" c.

(** [[1-9]] *)
Definition is_digit19 (c : ascii) : bool := in_range "1" "9" c.

(** [[0-9a-f]] *)
Definition is_hex (c : ascii) : bool := in_range "0" "9" c || in_range "a" "f" c.

(** [.] without the s flag: any character but a newline *)
Definition not_nl (c : ascii) : bool := negb (Ascii.eqb c nl).

(** A thread of the backtracking search: the input still to be read, the
    offset reached in the source, and the capture registers written so
    far (most recent first). *)
Record thread : Type := mkThread {
  rest : bytes;
  pos : nat;
  caps : list (nat * (nat * nat))
}.

Definition advance (st : thread) (k : nat) : thread :=
  mkThread (skipn k (rest st)) (pos st + k) (caps st).

Definition set_cap (i from : nat) (st : thread) : thread :=
  mkThread (rest st) (pos st) ((i, (from, pos st)) :: caps st).

Fixpoint get_cap (i : nat) (cs : list (nat * (nat * nat))) : option (nat * nat) :=
  match cs with
  | [] => None
  | (j, se) :: cs' => if Nat.eqb i j then Some se else get_cap i cs'
  end.

(** The greedy loop of [r*]: one more iteration is preferred to leaving
    the loop.  An iteration has to consume input, so the length of the
    remaining input bounds the number of iterations. *)
Fixpoint star_loop (step : thread -> list thread) (fuel : nat) (st : thread)
  : list thread :=
  match fuel with
  | O => [st]
  | S fuel' =>
      flat_map (star_loop step fuel')
               (filter (fun st' => length (rest st') <? length (rest st)) (step st))
      ++ [st]
  end.

Fixpoint m (r : regex) (st : thread) : list thread :=
  match r with
  | Lit c =>
      match rest st with
      | c' :: _ => if Ascii.eqb c' c then [advance st 1] else []
      | [] => []
      end
  | Cls p =>
      match rest st with
      | c' :: _ => if p c' then [advance st 1] else []
      | [] => []
      end
  | Cat r1 r2 => flat_map (m r2) (m r1 st)
  | Star r1 => star_loop (m r1) (length (rest st)) st
  | Cap i r1 => map (set_cap i (pos st)) (m r1 st)
  | EndText =>
      match rest st with
      | [] => [st]
      | _ :: _ => []
      end
  end.

(** The unanchored search: the leftmost start offset at which the
    pattern matches, with the whole match in register 0. *)
Fixpoint search (r : regex) (t : bytes) (p : nat) : option thread :=
  match m r (mkThread t p []) with
  | st :: _ => Some (set_cap 0 p st)
  | [] =>
      match t with
      | [] => None
      | _ :: t' => search r t' (S p)
      end
  end.

Fixpoint NumSubexp (r : regex) : nat :=
  match r with
  | Cat r1 r2 => Nat.max (NumSubexp r1) (NumSubexp r2)
  | Star r1 => NumSubexp r1
  | Cap i r1 => Nat.max i (NumSubexp r1)
  | _ => 0
  end.

(** [re.FindStringSubmatchIndex(s)]: the location of the match and of
    each group, [None] for Go's [nil]; a group that took no part in the
    match has no location (Go's -1 pair). *)
Definition FindStringSubmatchIndex (re : regex) (s : bytes)
  : option (list (option (nat * nat))) :=
  match search re s 0 with
  | Some st => Some (map (fun i => get_cap i (caps st)) (seq 0 (S (NumSubexp re))))
  | None => None
  end.

(** [re.FindStringSubmatch(s)]: the matched texts; the empty list is
    Go's [nil], whose length is 0. *)
Definition FindStringSubmatch (re : regex) (s : bytes) : list bytes :=
  match FindStringSubmatchIndex re s with
  | Some locs =>
      map (fun l => match l with
                    | Some (i, j) => slice s i j
                    | None => []
                    end) locs
  | None => []
  end.

(** A template of [Expand], parsed: [$n] is [Ref n]. *)
Inductive tmpl_item : Type :=
| Text (t : bytes)
| Ref (n : nat).

(** [re.ExpandString(dst, template, src, match)] *)
Fixpoint ExpandString (dst : bytes) (template : list tmpl_item) (src : bytes)
  (locs : list (option (nat * nat))) : bytes :=
  match template with
  | [] => dst
  | Text t :: template' => ExpandString (dst ++ t) template' src locs
  | Ref n :: template' =>
      match nth n locs None with
      | Some (i, j) => ExpandString (dst ++ slice src i j) template' src locs
      | None => ExpandString dst template' src locs
      end
  end.

(** ** cmd/linkflags/main.go *)

Definition versionPackage : bytes := b "github.com/gravitational/version".

(** [(.+)-([0-9]{1,})-g([0-9a-f]{14})$] *)
Definition semverPattern : regex :=
  Cat (Cap 1 (Plus (Cls not_nl)))
 (Cat (Lit "-")
 (Cat (Cap 2 (Plus (Cls is_digit)))
 (Cat (Lit "-")
 (Cat (Lit "g")
 (Cat (Cap 3 (Times 14 (Cls is_hex)))
      EndText))))).

(** [go([1-9])\.(\d+)(?:.\d+)*] *)
Definition goVersionPattern : regex :=
  Cat (Lit "g")
 (Cat (Lit "o")
 (Cat (Cap 1 (Cls is_digit19))
 (Cat (Lit ".")
 (Cat (Cap 2 (Plus (Cls is_digit)))
      (Star (Cat (Cls not_nl) (Plus (Cls is_digit)))))))).

(** The template ["$1.$2+$3"]: a name is the longest run of letters,
    digits and underscores after the dollar sign. *)
Definition semverTemplate : list tmpl_item :=
  [Ref 1; Text (b "."); Ref 2; Text (b "+"); Ref 3].

Definition semverify (version : bytes) : bytes :=
  match FindStringSubmatchIndex semverPattern version with
  | Some mtch => ExpandString [] semverTemplate version mtch
  | None => version
  end.

(** *** Numeric conversions *)

(** The bounds of Go's [int] on a 64-bit platform. *)
Definition maxInt : Z := (2 ^ 63 - 1)%Z.
Definition minInt : Z := (- 2 ^ 63)%Z.

(** Go's [int] arithmetic wraps around silently. *)
Definition wrap (z : Z) : Z := ((z + 2 ^ 63) mod 2 ^ 64 - 2 ^ 63)%Z.

Definition digit_value (c : ascii) : Z := (Z.of_nat (nat_of_ascii c) - 48)%Z.

(** The value of a run of decimal digits, most significant first. *)
Definition digits_value (ds : bytes) : Z :=
  fold_left (fun acc c => (acc * 10 + digit_value c)%Z) ds 0%Z.

(** [strconv.Atoi]: an optional sign, then one or more decimal digits;
    [None] is a non-nil error (a syntax error, or a value out of the
    range of [int]). *)
Definition Atoi (s : bytes) : option Z :=
  let '(neg, ds) :=
    match s with
    | c :: t =>
        if Ascii.eqb c "-" then (true, t)
        else if Ascii.eqb c "+" then (false, t)
        else (false, s)
    | [] => (false, s)
    end in
  match ds with
  | [] => None
  | _ :: _ =>
      if forallb is_digit ds then
        let n := digits_value ds in
        let v := if neg then (- n)%Z else n in
        if ((minInt <=? v) && (v <=? maxInt))%Z then Some v else None
      else None
  end.

(** A computation that returns or panics. *)
Inductive outcome (A : Type) : Type :=
| Ret (a : A)
| Panic.

Arguments Ret {A} a.
Arguments Panic {A}.

Definition bind {A B : Type} (c : outcome A) (k : A -> outcome B) : outcome B :=
  match c with
  | Ret a => k a
  | Panic => Panic
  end.

Notation "x <- c ;; k" := (bind c (fun x => k))
  (at level 61, c at next level, right associativity).

Definition mustAtoi (value : bytes) : outcome Z :=
  match Atoi value with
  | Some result => Ret result
  | None => Panic
  end.

(** *** Tool version *)

Definition toolVersion := Z.

Definition toolVersionUnknown : toolVersion := 0%Z.

Definition parseToolVersion (version : bytes) : outcome toolVersion :=
  match FindStringSubmatch goVersionPattern version with
  | _ :: match1 :: match2 :: _ =>
      major <- mustAtoi match1 ;;
      minor <- mustAtoi match2 ;;
      Ret (wrap (major * 10 + minor)%Z)
  | _ => Ret toolVersionUnknown
  end.

(** *** The host: flags, external commands, library calls *)

(** The error value of a command that could not be started or that
    exited with a failure. *)
Inductive execError : Type :=
| ExitError (code : nat)
| StartError.

Record toolError : Type := mkToolError {
  tool : bytes;
  output : bytes;
  err : execError
}.

Record Host : Type := mkHost {
  (** [*pkg] after [flag.Parse()] *)
  flag_pkg : bytes;
  (** [exec.Command(name, args...).CombinedOutput()] *)
  CombinedOutput : bytes -> list bytes -> bytes * option execError;
  (** [filepath.Join(a, b)] *)
  filepath_Join : bytes -> bytes -> bytes;
  (** [bytes.TrimSpace(s)] *)
  TrimSpace : bytes -> bytes
}.

(** [bytes.Split(s, sep)] for a separator of one byte. *)
Fixpoint Split (s : bytes) (sep : ascii) : list bytes :=
  match s with
  | [] => [[]]
  | c :: t =>
      if Ascii.eqb c sep then [] :: Split t sep
      else match Split t sep with
           | h :: r => (c :: h) :: r
           | [] => [[c]]
           end
  end.

Definition goToolVersion (h : Host) : outcome (toolVersion * option toolError) :=
  match CombinedOutput h (b "go") [b "version"] with
  | (out, Some e) => Ret (toolVersionUnknown, Some (mkToolError (b "go") out e))
  | (out, None) =>
      match Split out " " with
      | _ :: _ :: build2 :: _ =>
          v <- parseToolVersion build2 ;; Ret (v, None)
      | _ => Ret (toolVersionUnknown, None)
      end
  end.

(** *** git *)

Record git : Type := mkGit {
  cmd : bytes;
  args : list bytes
}.

Definition newGit (h : Host) (pkg : bytes) : git :=
  mkGit (b "git")
        [b "--work-tree"; pkg; b "--git-dir"; filepath_Join h pkg (b ".git")].

(** [type treeState string] *)
Definition treeState := bytes.

Definition clean : treeState := b "clean".
Definition dirty : treeState := b "dirty".

Definition git_exec (h : Host) (r : git) (a : list bytes)
  : bytes * option toolError :=
  let opts := [] ++ args r in
  let opts := opts ++ a in
  match CombinedOutput h (cmd r) opts with
  | (out, None) => (TrimSpace h out, None)
  | (out, Some e) => (out, Some (mkToolError (cmd r) out e))
  end.

Definition git_commitID (h : Host) (r : git) : bytes * option toolError :=
  git_exec h r [b "rev-parse"; b "HEAD^{commit}"].

Definition git_treeState (h : Host) (r : git) : treeState * option toolError :=
  match git_exec h r [b "status"; b "--porcelain"] with
  | (_, Some e) => ([], Some e)
  | (out, None) =>
      if (length out =? 0)%nat then (clean, None) else (dirty, None)
  end.

Definition git_version (h : Host) (r : git) (commitID : bytes)
  : bytes * option toolError :=
  git_exec h r [b "describe"; b "--tags"; b "--abbrev=14"; commitID ++ b "^{commit}"].

(** *** main *)

(** [strings.Join(elems, sep)] *)
Fixpoint Join (elems : list bytes) (sep : bytes) : bytes :=
  match elems with
  | [] => []
  | [x] => x
  | x :: xs => x ++ sep ++ Join xs sep
  end.

(** The closure [linkFlag] of [main], with the [goVersion] it captures. *)
Definition linkFlag (goVersion : toolVersion) (key value : bytes) : bytes :=
  if (goVersion <=? 14)%Z then
    b "-X " ++ versionPackage ++ b "." ++ key ++ b " " ++ value
  else
    b "-X " ++ versionPackage ++ b "." ++ key ++ b "=" ++ value.

(** The version string of [main] once the describe query has returned:
    lines 48 to 57. *)
Definition finalVersion (state : treeState) (described : bytes * option toolError)
  : bytes :=
  let version :=
    match described with
    | (_, Some _) => []
    | (version, None) => version
    end in
  if negb (is_empty version) then
    let version := semverify version in
    if bytes_eqb state dirty then version ++ b "-dirty" else version
  else version.

(** The settings of [main]: lines 59 to 75. *)
Definition linkFlags (goVersion : toolVersion) (commitID : bytes)
  (state : treeState) (version : bytes) : list bytes :=
  let linkFlags := [] in
  let linkFlags :=
    if negb (is_empty commitID) then
      (linkFlags ++ [linkFlag goVersion (b "gitCommit") commitID])
        ++ [linkFlag goVersion (b "gitTreeState") state]
    else linkFlags in
  let linkFlags :=
    if negb (is_empty version) then
      linkFlags ++ [linkFlag goVersion (b "version") version]
    else linkFlags in
  linkFlags.

(** The ways a run ends: [log.Fatal*] (a diagnostic and exit status 1),
    the line printed by [log.Printf], or a panic. *)
Inductive fatal : Type :=
| PkgRequired
| GoToolVersionFailed (e : toolError)
| CommitIDFailed (e : toolError)
| TreeStateFailed (e : toolError).

Inductive ending : Type :=
| Fatal (f : fatal)
| Printed (line : bytes)
| Panicked.

Definition main (h : Host) : ending :=
  if is_empty (flag_pkg h) then Fatal PkgRequired
  else
    match goToolVersion h with
    | Panic => Panicked
    | Ret (_, Some e) => Fatal (GoToolVersionFailed e)
    | Ret (goVersion, None) =>
        let git := newGit h (flag_pkg h) in
        match git_commitID h git with
        | (_, Some e) => Fatal (CommitIDFailed e)
        | (commitID, None) =>
            match git_treeState h git with
            | (_, Some e) => Fatal (TreeStateFailed e)
            | (state, None) =>
                let version := finalVersion state (git_version h git commitID) in
                Printed (Join (linkFlags goVersion commitID state version) (b " "))
            end
        end
    end.

(** ** Direct readings of the two patterns

    These functions scan the input the way the patterns read; the
    matcher is shown to agree with them. *)

(** The length of the longest prefix of [l] whose bytes are all in [p]. *)
Fixpoint run (p : ascii -> bool) (l : bytes) : nat :=
  match l with
  | c :: t => if p c then S (run p t) else O
  | [] => O
  end.

(** [n; n-1; ...; 1]: the lengths a greedy [r+] tries, in order. *)
Fixpoint downto (n : nat) : list nat :=
  match n with
  | O => []
  | S n' => n :: downto n'
  end.

Fixpoint first_some {A B : Type} (f : A -> option B) (l : list A) : option B :=
  match l with
  | [] => None
  | a :: l' =>
      match f a with
      | Some x => Some x
      | None => first_some f l'
      end
  end.

(** [-N-gH] up to the end of the text: the digits [N] and the hash [H]. *)
Definition tail_split (u : bytes) : option (bytes * bytes) :=
  match u with
  | a :: t =>
      let k := run is_digit t in
      match skipn k t with
      | c1 :: c2 :: H =>
          if Ascii.eqb a "-" && (1 <=? k)%nat
             && Ascii.eqb c1 "-" && Ascii.eqb c2 "g"
             && (length H =? 14)%nat && forallb is_hex H
          then Some (firstn k t, H)
          else None
      | _ => None
      end
  | [] => None
  end.

(** The thread that has read [-N-gH] from [st]. *)
Definition tail_thread (st : thread) (N : bytes) : thread :=
  mkThread []
           (pos st + 1 + length N + 1 + 1 + 14)
           ((3, (pos st + 1 + length N + 1 + 1, pos st + 1 + length N + 1 + 1 + 14))
              :: (2, (pos st + 1, pos st + 1 + length N))
              :: caps st).

(** A token [go<d>.<digits>] at the head of [u]: the major digit and
    the longest run of minor digits. *)
Definition token_at (u : bytes) : option (ascii * bytes) :=
  match u with
  | c1 :: c2 :: d :: c3 :: t =>
      if Ascii.eqb c1 "g" && Ascii.eqb c2 "o" && is_digit19 d
         && Ascii.eqb c3 "." && (1 <=? run is_digit t)%nat
      then Some (d, firstn (run is_digit t) t)
      else None
  | _ => None
  end.

(** The leftmost token of [s]. *)
Fixpoint goToken (s : bytes) : option (ascii * bytes) :=
  match token_at s with
  | Some x => Some x
  | None =>
      match s with
      | [] => None
      | _ :: s' => goToken s'
      end
  end.

(** [semverPattern] after its first group: [-([0-9]{1,})-g([0-9a-f]{14})$] *)
Definition semverTail : regex :=
  Cat (Lit "-")
 (Cat (Cap 2 (Plus (Cls is_digit)))
 (Cat (Lit "-")
 (Cat (Lit "g")
 (Cat (Cap 3 (Times 14 (Cls is_hex)))
      EndText)))).

(** [goVersionPattern] after its second group: [(?:.\d+)*] *)
Definition goVersionTail : regex :=
  Star (Cat (Cls not_nl) (Plus (Cls is_digit))).

(** The shape [<prefix>-<N>-g<H>] of a describe string. *)
Definition describe_string (prefix N H : bytes) : bytes :=
  prefix ++ b "-" ++ N ++ b "-g" ++ H.

(** [N] is one or more decimal digits. *)
Definition decimal (N : bytes) : Prop :=
  N <> [] /\ forallb is_digit N = true.

(** [H] is exactly 14 lower-case hexadecimal digits. *)
Definition hash14 (H : bytes) : Prop :=
  length H = 14 /\ forallb is_hex H = true.

(** [l] is on one line. *)
Definition one_line (l : bytes) : Prop :=
  forallb not_nl l = true.

(** A token [go<d>.<digits>] followed by [tl]. *)
Definition token_string (d : ascii) (ds tl : bytes) : bytes :=
  b "go" ++ [d] ++ b "." ++ ds ++ tl.

(** [tl] does not go on with a digit. *)
Definition no_digit_ahead (tl : bytes) : Prop :=
  match tl with
  | [] => True
  | c :: _ => is_digit c = false
  end.

(** [s] ends with [suffix]. *)
Definition ends_with (s suffix : bytes) : Prop :=
  exists front, s = front ++ suffix.

(** The output of [go version] has no third field, or its third field
    does not match [goVersionPattern]. *)
Definition unparseable (out : bytes) : Prop :=
  match Split out " " with
  | _ :: _ :: build2 :: _ => FindStringSubmatch goVersionPattern build2 = []
  | _ => True
  end.

(** [f] holds no space: it is one field of [bytes.Split(out, " ")]. *)
Definition no_space (f : bytes) : Prop :=
  forallb (fun c => negb (Ascii.eqb c " ")) f = true.

(** [rest] is empty or goes on with a space: a field ends before it. *)
Definition field_end (rest : bytes) : Prop :=
  match rest with
  | [] => True
  | c :: _ => c = " "%char
  end.

(** The number of spaces of [s]. *)
Definition spaces (s : bytes) : nat := count_occ ascii_dec s " "%char.

(** [q] is empty or ends with a newline: what follows starts a line. *)
Definition line_start (q : bytes) : Prop :=
  q = [] \/ exists q', q = q' ++ [nl].

(** ** Sample hosts

    A repository at commit [0123...4567] with a clean tree, given the
    outcome of [go version] and of the describe query. *)

Definition is_space (c : ascii) : bool :=
  Ascii.eqb c " " || in_range (ascii_of_nat 9) (ascii_of_nat 13) c.

Fixpoint trim_left (s : bytes) : bytes :=
  match s with
  | c :: t => if is_space c then trim_left t else s
  | [] => []
  end.

(** [bytes.TrimSpace] on ASCII text. *)
Definition trim_space (s : bytes) : bytes :=
  rev (trim_left (rev (trim_left s))).

Definition sample_commit : bytes := b "0123456789abcdef0123456789abcdef01234567".

Definition sample_host (goVersionRun describeRun : bytes * option execError)
  : Host :=
  mkHost (b "/src/pkg")
         (fun name a =>
            if bytes_eqb name (b "go") then goVersionRun
            else
              match a with
              | _ :: _ :: _ :: _ :: sub :: _ =>
                  if bytes_eqb sub (b "rev-parse") then (sample_commit ++ [nl], None)
                  else if bytes_eqb sub (b "status") then ([], None)
                  else describeRun
              | _ => ([], Some StartError)
              end)
         (fun x y => x ++ b "/" ++ y)
         trim_space.

Definition go_1_21 : bytes * option execError :=
  (b "go version go1.21.3 linux/amd64" ++ [nl], None).

Definition go_devel : bytes * option execError :=
  (b "go version devel +a1b2c3 linux/amd64" ++ [nl], None).

Definition go_missing : bytes * option execError := ([], Some StartError).

Definition describe_tagged : bytes * option execError :=
  (b "v1.2.0" ++ [nl], None).

Definition describe_no_tags : bytes * option execError :=
  (b "fatal: No names found, cannot describe anything." ++ [nl],
   Some (ExitError 128)).

(** A path that is not a git repository. *)
Definition host_no_repository : Host :=
  mkHost (b "/src/pkg")
         (fun name a =>
            if bytes_eqb name (b "go") then go_1_21
            else (b "fatal: not a git repository" ++ [nl], Some (ExitError 128)))
         (fun x y => x ++ b "/" ++ y)
         trim_space.

(** A repository with a modified file, three commits after [v1.2.0]. *)
Definition host_dirty : Host :=
  mkHost (b "/src/pkg")
         (fun name a =>
            if bytes_eqb name (b "go") then go_1_21
            else
              match a with
              | _ :: _ :: _ :: _ :: sub :: _ =>
                  if bytes_eqb sub (b "rev-parse") then (sample_commit ++ [nl], None)
                  else if bytes_eqb sub (b "status") then (b " M main.go" ++ [nl], None)
                  else (b "v1.2.0-3-g0123456789abcd" ++ [nl], None)
              | _ => ([], Some StartError)
              end)
         (fun x y => x ++ b "/" ++ y)
         trim_space.

(** ** Lists *)

Lemma app_same_length_tail (A : Type) (x y u v : list A) :
  x ++ u = y ++ v -> length u = length v -> x = y /\ u = v.
Proof.
  revert y. induction x as [|a x IH]; intros [|c y] E L; simpl in E.
  - auto.
  - exfalso. apply (f_equal (@length A)) in E. simpl in E.
    rewrite length_app in E. lia.
  - exfalso. apply (f_equal (@length A)) in E. simpl in E.
    rewrite length_app in E. lia.
  - injection E as -> E. destruct (IH _ E L) as [-> ->]. auto.
Qed.

Lemma hd_flat_map (A B : Type) (g : A -> list B) (l : list A) :
  hd_error (flat_map g l) = first_some (fun a => hd_error (g a)) l.
Proof.
  induction l as [|a l IH]; simpl; [reflexivity|].
  destruct (g a) as [|x xs]; simpl; auto.
Qed.

Lemma first_some_map (A B C : Type) (f : B -> option C) (g : A -> B) (l : list A) :
  first_some f (map g l) = first_some (fun a => f (g a)) l.
Proof.
  induction l as [|a l IH]; simpl; [reflexivity|].
  destruct (f (g a)); auto.
Qed.

Lemma first_some_ext (A B : Type) (f g : A -> option B) (l : list A) :
  (forall a, In a l -> f a = g a) -> first_some f l = first_some g l.
Proof.
  induction l as [|a l IH]; simpl; intros E; [reflexivity|].
  rewrite (E a) by auto. destruct (g a); auto.
Qed.

Lemma in_downto (n k : nat) : In k (downto n) <-> 1 <= k <= n.
Proof.
  induction n as [|n IH]; simpl.
  - lia.
  - rewrite IH. lia.
Qed.

Lemma map_S_downto (n : nat) : map S (downto n ++ [0]) = downto (S n).
Proof.
  induction n as [|n IH]; [reflexivity|].
  change (downto (S n)) with (S n :: downto n).
  simpl map. rewrite IH. reflexivity.
Qed.

(** The first success of a search downwards from [n] is the largest
    successful index. *)
Lemma first_some_downto_at (B : Type) (f : nat -> option B) (n k : nat) (x : B) :
  1 <= k <= n ->
  (forall j, k < j <= n -> f j = None) ->
  f k = Some x ->
  first_some f (downto n) = Some x.
Proof.
  induction n as [|n IH]; intros K Above Hk; [lia|].
  simpl. destruct (Nat.eq_dec k (S n)) as [->|Ne].
  - rewrite Hk. reflexivity.
  - rewrite (Above (S n)) by lia. apply IH; auto; try lia.
    intros j Hj. apply Above. lia.
Qed.

Lemma first_some_downto_inv (B : Type) (f : nat -> option B) (n : nat) (x : B) :
  first_some f (downto n) = Some x ->
  exists k, 1 <= k <= n /\ f k = Some x /\ forall j, k < j <= n -> f j = None.
Proof.
  induction n as [|n IH]; simpl; [discriminate|].
  destruct (f (S n)) as [y|] eqn:E.
  - intros [= ->]. exists (S n). repeat split; auto; lia.
  - intros F. destruct (IH F) as (k & K & Hk & Above).
    exists k. repeat split; auto; try lia.
    intros j Hj. destruct (Nat.eq_dec j (S n)) as [->|]; auto.
    apply Above. lia.
Qed.

(** ** Runs of a character class *)

Lemma run_le_length p l : run p l <= length l.
Proof.
  induction l as [|c t IH]; simpl; [lia|]. destruct (p c); simpl; lia.
Qed.

Lemma run_firstn_all p l : forallb p (firstn (run p l) l) = true.
Proof.
  induction l as [|c t IH]; simpl; [reflexivity|].
  destruct (p c) eqn:E; simpl; [rewrite E; auto|reflexivity].
Qed.

Lemma run_skipn_head p l c t : skipn (run p l) l = c :: t -> p c = false.
Proof.
  induction l as [|a l IH]; simpl; [discriminate|].
  destruct (p a) eqn:E; simpl; auto. intros [= <- _]. exact E.
Qed.

Lemma run_app_stop p l c t :
  forallb p l = true -> p c = false -> run p (l ++ c :: t) = length l.
Proof.
  induction l as [|a l IH]; simpl; intros A C.
  - rewrite C. reflexivity.
  - apply andb_prop in A as [-> A]. rewrite IH; auto.
Qed.

Lemma run_all p l : forallb p l = true -> run p l = length l.
Proof.
  induction l as [|a l IH]; simpl; [reflexivity|].
  intros A. apply andb_prop in A as [-> A]. rewrite IH; auto.
Qed.

Lemma run_below p l k c t :
  k < run p l -> skipn k l = c :: t -> p c = true.
Proof.
  revert k. induction l as [|a l IH]; simpl; intros k K E; [lia|].
  destruct (p a) eqn:Pa; [|lia].
  destruct k as [|k]; simpl in E.
  - injection E as <- _. exact Pa.
  - apply (IH k); auto. lia.
Qed.

Lemma forallb_firstn_le p l k :
  k <= run p l -> forallb p (firstn k l) = true.
Proof.
  revert k. induction l as [|a l IH]; intros [|k] K; simpl in *; auto.
  destruct (p a); [|lia]. simpl. apply IH. lia.
Qed.

(** ** The matcher on the constructs of the two patterns *)

Lemma advance_0 st : advance st 0 = st.
Proof.
  destruct st as [r q c]. unfold advance. simpl. rewrite Nat.add_0_r. reflexivity.
Qed.

Lemma advance_advance st a k : advance (advance st a) k = advance st (a + k).
Proof.
  unfold advance. simpl. rewrite skipn_skipn, Nat.add_assoc, (Nat.add_comm k a).
  reflexivity.
Qed.

Lemma map_advance_1 st l :
  map (advance (advance st 1)) l = map (advance st) (map S l).
Proof.
  rewrite map_map. apply map_ext. intros k. apply advance_advance.
Qed.

Lemma m_Cat r1 r2 st : m (Cat r1 r2) st = flat_map (m r2) (m r1 st).
Proof. reflexivity. Qed.

Lemma m_Cap i r st : m (Cap i r) st = map (set_cap i (pos st)) (m r st).
Proof. reflexivity. Qed.

Lemma m_Lit_cons c a t q cs :
  m (Lit c) (mkThread (a :: t) q cs) =
  if Ascii.eqb a c then [mkThread t (q + 1) cs] else [].
Proof. reflexivity. Qed.

Lemma m_Cls_cons p a t q cs :
  m (Cls p) (mkThread (a :: t) q cs) =
  if p a then [mkThread t (q + 1) cs] else [].
Proof. reflexivity. Qed.

Lemma star_loop_cls p fuel st :
  run p (rest st) <= fuel ->
  star_loop (m (Cls p)) fuel st = map (advance st) (downto (run p (rest st)) ++ [0]).
Proof.
  revert st. induction fuel as [|fuel IH]; intros st R.
  - replace (run p (rest st)) with 0 by lia. simpl. rewrite advance_0. reflexivity.
  - destruct st as [[|a t] q cs].
    + simpl. f_equal. symmetry. apply (advance_0 (mkThread [] q cs)).
    + simpl in R. cbn [star_loop]. rewrite m_Cls_cons. cbn [rest run].
      destruct (p a) eqn:Pa.
      * cbn [filter rest length].
        replace (length t <? S (length t)) with true
          by (symmetry; apply Nat.ltb_lt; lia).
        cbn [flat_map]. rewrite app_nil_r.
        change (mkThread t (q + 1) cs) with (advance (mkThread (a :: t) q cs) 1).
        rewrite IH by (cbn [advance rest skipn]; lia).
        cbn [advance rest skipn].
        change (mkThread t (q + 1) cs) with (advance (mkThread (a :: t) q cs) 1).
        rewrite map_advance_1, map_S_downto.
        rewrite (map_app _ (downto (S (run p t)))). f_equal.
        simpl. rewrite (advance_0 (mkThread (a :: t) q cs)). reflexivity.
      * simpl. f_equal. apply (eq_sym (advance_0 (mkThread (a :: t) q cs))).
Qed.

(** [c*]: every length from the longest run down to zero. *)
Lemma m_Star_Cls p st :
  m (Star (Cls p)) st = map (advance st) (downto (run p (rest st)) ++ [0]).
Proof.
  apply star_loop_cls, run_le_length.
Qed.

(** [c+]: every length from the longest run down to one. *)
Lemma m_Plus_Cls p st :
  m (Plus (Cls p)) st = map (advance st) (downto (run p (rest st))).
Proof.
  unfold Plus. rewrite m_Cat. destruct st as [[|a t] q cs]; [reflexivity|].
  rewrite m_Cls_cons. cbn [rest run]. destruct (p a); [|reflexivity].
  cbn [flat_map]. rewrite app_nil_r, m_Star_Cls.
  change (mkThread t (q + 1) cs) with (advance (mkThread (a :: t) q cs) 1).
  cbn [advance rest skipn].
  change (mkThread t (q + 1) cs) with (advance (mkThread (a :: t) q cs) 1).
  rewrite map_advance_1, map_S_downto. reflexivity.
Qed.

(** [c{n}] for [n >= 1]: the next [n] bytes, all in the class. *)
Lemma m_Times_Cls p n st :
  m (Times (S n) (Cls p)) st =
  if (S n <=? length (rest st)) && forallb p (firstn (S n) (rest st))
  then [advance st (S n)] else [].
Proof.
  revert st. induction n as [|n IH]; intros [r q cs].
  - destruct r as [|a t]; [reflexivity|].
    cbn [Times]. rewrite m_Cls_cons. cbn [rest length firstn forallb Nat.leb].
    rewrite andb_true_r. destruct (p a); reflexivity.
  - change (Times (S (S n)) (Cls p)) with (Cat (Cls p) (Times (S n) (Cls p))).
    rewrite m_Cat. destruct r as [|a t]; [reflexivity|].
    rewrite m_Cls_cons.
    cbn [rest]. change (firstn (S (S n)) (a :: t)) with (a :: firstn (S n) t).
    cbn [forallb]. destruct (p a).
    + cbn [flat_map]. rewrite app_nil_r, IH. cbn [rest length].
      change (S (S n) <=? S (length t)) with (S n <=? length t).
      rewrite andb_true_l.
      destruct ((S n <=? length t) && forallb p (firstn (S n) t)); [|reflexivity].
      change (mkThread t (q + 1) cs) with (advance (mkThread (a :: t) q cs) 1).
      rewrite advance_advance. reflexivity.
    + rewrite andb_false_l, andb_false_r. reflexivity.
Qed.

(** ** Facts about single bytes *)

Ltac by_bits c :=
  destruct c as [[] [] [] [] [] [] [] []]; vm_compute; congruence.

Lemma digit_not_dash c : is_digit c = true -> Ascii.eqb c "-" = false.
Proof. by_bits c. Qed.

Lemma digit_not_nl c : is_digit c = true -> not_nl c = true.
Proof. by_bits c. Qed.

Lemma hex_not_nl c : is_hex c = true -> not_nl c = true.
Proof. by_bits c. Qed.

Lemma digit19_value c : is_digit19 c = true -> (1 <= digit_value c <= 9)%Z.
Proof.
  destruct c as [[] [] [] [] [] [] [] []]; vm_compute; intuition congruence.
Qed.

Lemma digit_value_range c : is_digit c = true -> (0 <= digit_value c <= 9)%Z.
Proof.
  destruct c as [[] [] [] [] [] [] [] []]; vm_compute; intuition congruence.
Qed.

Lemma forallb_impl_bytes (p q : ascii -> bool) (l : bytes) :
  (forall c, p c = true -> q c = true) -> forallb p l = true -> forallb q l = true.
Proof.
  intros I. induction l as [|a l IH]; simpl; [reflexivity|].
  intros A. apply andb_prop in A as [A1 A2]. rewrite (I _ A1), IH; auto.
Qed.

(** ** [semverPattern] *)

Lemma flat_map_nil (A B : Type) (g : A -> list B) (l : list A) :
  (forall a, In a l -> g a = []) -> flat_map g l = [].
Proof.
  induction l as [|a l IH]; simpl; intros E; [reflexivity|].
  rewrite (E a), IH; auto.
Qed.

(** When only the longest length can be continued, the greedy choice
    is the only one. *)
Lemma flat_map_downto_top (B : Type) (g : nat -> list B) (n : nat) :
  (forall j, 1 <= j < n -> g j = []) ->
  flat_map g (downto n) = match n with O => [] | S _ => g n end.
Proof.
  destruct n as [|n]; intros E; [reflexivity|].
  cbn [downto flat_map]. rewrite flat_map_nil, app_nil_r; [reflexivity|].
  intros a Ha. apply in_downto in Ha. apply E. lia.
Qed.

Lemma length_14_cases (H : bytes) :
  (if (14 <=? length H) && forallb is_hex (firstn 14 H)
   then match skipn 14 H with [] => true | _ :: _ => false end
   else false)
  = (length H =? 14) && forallb is_hex H.
Proof.
  destruct (Nat.lt_trichotomy (length H) 14) as [L|[L|L]].
  - replace (14 <=? length H) with false by (symmetry; apply Nat.leb_gt; lia).
    replace (length H =? 14) with false by (symmetry; apply Nat.eqb_neq; lia).
    reflexivity.
  - assert (F : firstn 14 H = H) by (rewrite <- L; apply firstn_all).
    assert (S : skipn 14 H = []) by (rewrite <- L; apply skipn_all).
    rewrite F, S, L. simpl. destruct (forallb is_hex H); reflexivity.
  - replace (length H =? 14) with false by (symmetry; apply Nat.eqb_neq; lia).
    destruct (skipn 14 H) eqn:E.
    + apply (f_equal (@length ascii)) in E. rewrite length_skipn in E.
      simpl in E. lia.
    + destruct ((14 <=? length H) && forallb is_hex (firstn 14 H)); reflexivity.
Qed.

Lemma m_semverTail st :
  m semverTail st =
  match tail_split (rest st) with
  | Some (N, _) => [tail_thread st N]
  | None => []
  end.
Proof.
  destruct st as [[|a t] q cs]; [reflexivity|].
  unfold semverTail. rewrite m_Cat, m_Lit_cons. cbn [rest tail_split].
  destruct (Ascii.eqb a "-"); cbn [andb];
    [|destruct (skipn (run is_digit t) t) as [|c1 [|c2 H]]; reflexivity].
  cbn [flat_map]. rewrite app_nil_r, m_Cat, m_Cap, m_Plus_Cls. cbn [rest pos].
  rewrite flat_map_concat_map, map_map, map_map, <- flat_map_concat_map.
  rewrite flat_map_downto_top.
  - pose proof (run_le_length is_digit t) as Rle.
    destruct (run is_digit t) as [|k] eqn:Rk.
    + cbn [Nat.leb andb]. destruct (skipn 0 t) as [|c1 [|c2 H]]; reflexivity.
    + cbn [Nat.leb andb]. unfold set_cap, advance. cbn [rest pos caps].
      destruct (skipn (S k) t) as [|c1 [|c2 H]] eqn:Sk; [reflexivity| |].
      * rewrite m_Cat, m_Lit_cons. destruct (Ascii.eqb c1 "-"); reflexivity.
      * rewrite m_Cat, m_Lit_cons. destruct (Ascii.eqb c1 "-"); [|reflexivity].
        cbn [flat_map andb]. rewrite app_nil_r, m_Cat, m_Lit_cons.
        destruct (Ascii.eqb c2 "g"); [|reflexivity].
        cbn [flat_map andb]. rewrite app_nil_r, m_Cat, m_Cap, m_Times_Cls.
        cbn [rest pos]. rewrite <- length_14_cases.
        destruct ((14 <=? length H) && forallb is_hex (firstn 14 H));
          [|reflexivity].
        cbn [map flat_map]. rewrite app_nil_r.
        unfold set_cap, advance. cbn [rest pos caps m].
        destruct (skipn 14 H); [|reflexivity].
        unfold tail_thread. cbn [pos caps].
        rewrite length_firstn, Nat.min_l by lia. reflexivity.
  - intros j J. unfold set_cap, advance. cbn [rest pos caps].
    destruct (skipn j t) as [|c u] eqn:Sj; [reflexivity|].
    rewrite m_Cat, m_Lit_cons.
    rewrite (digit_not_dash c); [reflexivity|].
    apply (run_below is_digit t j c u); [lia|exact Sj].
Qed.

Lemma firstn_length_app (A : Type) (x y : list A) : firstn (length x) (x ++ y) = x.
Proof.
  induction x as [|a x IH]; simpl; [reflexivity|]. rewrite IH. reflexivity.
Qed.

Lemma skipn_length_app (A : Type) (x y : list A) : skipn (length x) (x ++ y) = y.
Proof.
  induction x as [|a x IH]; simpl; auto.
Qed.

Lemma skipn_beyond_app (A : Type) (x y : list A) (j : nat) :
  length x <= j -> skipn j (x ++ y) = skipn (j - length x) y.
Proof.
  revert j. induction x as [|a x IH]; intros j J; simpl in *.
  - rewrite Nat.sub_0_r. reflexivity.
  - destruct j as [|j]; [lia|]. simpl. apply IH. lia.
Qed.

Lemma skipn_within_app (A : Type) (x y : list A) (j : nat) :
  j <= length x -> skipn j (x ++ y) = skipn j x ++ y.
Proof.
  revert j. induction x as [|a x IH]; intros [|j] J; simpl in *; auto; try lia.
  apply IH. lia.
Qed.

(** [src[a:c]] is the middle of [src = x ++ y ++ z]. *)
Lemma slice_at (src x y z : bytes) (a c : nat) :
  src = x ++ y ++ z -> a = length x -> c = a + length y -> slice src a c = y.
Proof.
  intros -> -> ->. unfold slice.
  rewrite skipn_length_app.
  replace (length x + length y - length x) with (length y) by lia.
  apply firstn_length_app.
Qed.

Lemma tail_split_sound u N H :
  tail_split u = Some (N, H) ->
  u = b "-" ++ N ++ b "-g" ++ H /\ decimal N /\ hash14 H.
Proof.
  destruct u as [|a t]; [discriminate|]. cbn [tail_split].
  pose proof (run_le_length is_digit t) as Rle.
  destruct (skipn (run is_digit t) t) as [|c1 [|c2 H']] eqn:Sk; try discriminate.
  destruct (Ascii.eqb a "-") eqn:Ea; [|discriminate].
  destruct (1 <=? run is_digit t) eqn:Ek; [|discriminate].
  destruct (Ascii.eqb c1 "-") eqn:E1; [|discriminate].
  destruct (Ascii.eqb c2 "g") eqn:E2; [|discriminate].
  destruct (length H' =? 14) eqn:EL; [|discriminate].
  destruct (forallb is_hex H') eqn:EH; [|discriminate].
  cbn [andb]. intros [= <- <-].
  apply Ascii.eqb_eq in Ea, E1, E2. subst a c1 c2.
  apply Nat.leb_le in Ek. apply Nat.eqb_eq in EL.
  split; [|split].
  - change (b "-") with ["-"%char]. change (b "-g") with ["-"%char; "g"%char].
    cbn [app]. f_equal. rewrite <- Sk. symmetry. apply firstn_skipn.
  - split; [|apply run_firstn_all].
    intros F. apply (f_equal (@length ascii)) in F.
    rewrite length_firstn in F. simpl in F. lia.
  - split; assumption.
Qed.

Lemma tail_split_complete N H :
  decimal N -> hash14 H -> tail_split (b "-" ++ N ++ b "-g" ++ H) = Some (N, H).
Proof.
  intros [Ne Nd] [HL Hh].
  change (b "-") with ["-"%char]. change (b "-g") with ["-"%char; "g"%char].
  cbn [app tail_split].
  rewrite (run_app_stop is_digit N "-" ("g"%char :: H)) by auto.
  rewrite skipn_length_app, firstn_length_app.
  destruct N as [|n0 N]; [congruence|].
  cbn [length Nat.leb]. rewrite HL, Hh. reflexivity.
Qed.

(** Anchored at the head of [t]: group 1 takes the longest line prefix
    that leaves [-N-gH] up to the end of the text. *)
Lemma hd_semverPattern t p :
  hd_error (m semverPattern (mkThread t p [])) =
  first_some
    (fun k =>
       match tail_split (skipn k t) with
       | Some (N, _) =>
           Some (tail_thread (mkThread (skipn k t) (p + k) [(1, (p, p + k))]) N)
       | None => None
       end)
    (downto (run not_nl t)).
Proof.
  change semverPattern with (Cat (Cap 1 (Plus (Cls not_nl))) semverTail).
  rewrite m_Cat, m_Cap, m_Plus_Cls, hd_flat_map, !first_some_map.
  apply first_some_ext. intros k _. rewrite m_semverTail.
  unfold set_cap, advance. cbn [rest pos caps].
  destruct (tail_split (skipn k t)) as [[N H]|]; reflexivity.
Qed.

Lemma describe_string_one_line P N H :
  one_line P -> decimal N -> hash14 H -> one_line (describe_string P N H).
Proof.
  intros OP [_ Nd] [_ Hh]. unfold one_line, describe_string.
  rewrite !forallb_app. rewrite OP.
  rewrite (forallb_impl_bytes is_digit not_nl N digit_not_nl Nd).
  rewrite (forallb_impl_bytes is_hex not_nl H hex_not_nl Hh).
  reflexivity.
Qed.

(** No proper suffix of [N-gH] reads as [-N'-gH']. *)
Lemma tail_split_inside N H j :
  decimal N -> hash14 H -> tail_split (skipn j (N ++ b "-g" ++ H)) = None.
Proof.
  intros [_ Nd] [HL _].
  destruct (tail_split (skipn j (N ++ b "-g" ++ H))) as [[N' H']|] eqn:E;
    [exfalso|reflexivity].
  apply tail_split_sound in E as (E & _ & [HL' _]).
  pose proof (firstn_skipn j (N ++ b "-g" ++ H)) as F.
  rewrite E in F.
  change (b "-g") with ["-"%char; "g"%char] in F.
  change (b "-") with ["-"%char] in F.
  set (X := firstn j _) in F.
  assert (F1 : (X ++ ["-"%char] ++ N' ++ ["-"%char; "g"%char]) ++ H'
               = (N ++ ["-"%char; "g"%char]) ++ H)
    by (rewrite <- !app_assoc; exact F).
  apply app_same_length_tail in F1 as [F1 _]; [|lia].
  assert (F2 : (X ++ ["-"%char] ++ N') ++ ["-"%char; "g"%char]
               = N ++ ["-"%char; "g"%char])
    by (rewrite <- !app_assoc; exact F1).
  apply app_same_length_tail in F2 as [F2 _]; [|reflexivity].
  clear F F1. rename F2 into F.
  rewrite <- F, !forallb_app in Nd. cbn in Nd.
  rewrite andb_false_r in Nd. discriminate.
Qed.

Lemma semver_anchored_complete P N H p :
  P <> [] -> one_line P -> decimal N -> hash14 H ->
  hd_error (m semverPattern (mkThread (describe_string P N H) p [])) =
  Some (tail_thread
          (mkThread (b "-" ++ N ++ b "-g" ++ H) (p + length P)
                    [(1, (p, p + length P))]) N).
Proof.
  intros Pne OP DN HH. rewrite hd_semverPattern.
  rewrite (run_all not_nl) by (apply describe_string_one_line; assumption).
  apply first_some_downto_at with (k := length P).
  - unfold describe_string. rewrite length_app.
    destruct P; [congruence|]. simpl. lia.
  - intros j J. unfold describe_string.
    rewrite skipn_beyond_app by lia.
    change (b "-" ++ N ++ b "-g" ++ H) with ("-"%char :: (N ++ b "-g" ++ H)).
    destruct (j - length P) as [|j'] eqn:Ej; [lia|].
    cbn [skipn]. rewrite tail_split_inside by assumption. reflexivity.
  - unfold describe_string. rewrite skipn_length_app.
    rewrite tail_split_complete by assumption. reflexivity.
Qed.

Lemma semver_anchored_sound t p st :
  hd_error (m semverPattern (mkThread t p [])) = Some st ->
  exists P N H,
    t = describe_string P N H /\ P <> [] /\ one_line P /\ decimal N /\ hash14 H /\
    st = tail_thread
           (mkThread (b "-" ++ N ++ b "-g" ++ H) (p + length P)
                     [(1, (p, p + length P))]) N.
Proof.
  rewrite hd_semverPattern. intros F.
  apply first_some_downto_inv in F as (k & K & Fk & _).
  destruct (tail_split (skipn k t)) as [[N H]|] eqn:E; [|discriminate].
  injection Fk as <-.
  apply tail_split_sound in E as (E & DN & HH).
  pose proof (run_le_length not_nl t) as Rle.
  assert (Lk : length (firstn k t) = k) by (rewrite length_firstn; lia).
  exists (firstn k t), N, H. repeat split; try (apply DN || apply HH).
  - unfold describe_string. rewrite <- E. symmetry. apply firstn_skipn.
  - intros Z. rewrite Z in Lk. simpl in Lk. lia.
  - apply forallb_firstn_le. lia.
  - rewrite Lk, E. reflexivity.
Qed.

(** ** The unanchored search *)

Lemma search_at r t p i st :
  i <= length t ->
  (forall j, j < i -> m r (mkThread (skipn j t) (p + j) []) = []) ->
  hd_error (m r (mkThread (skipn i t) (p + i) [])) = Some st ->
  search r t p = Some (set_cap 0 (p + i) st).
Proof.
  revert t p. induction i as [|i IH]; intros t p L Before Here.
  - rewrite Nat.add_0_r in *. cbn [skipn] in Here.
    destruct t as [|a t]; cbn [search];
      destruct (m r _) as [|x xs]; try discriminate;
      injection Here as ->; reflexivity.
  - destruct t as [|a t]; [simpl in L; lia|].
    cbn [search]. pose proof (Before 0 (Nat.lt_0_succ i)) as B0.
    rewrite Nat.add_0_r in B0. cbn [skipn] in B0. rewrite B0.
    rewrite <- Nat.add_succ_comm. apply IH.
    + simpl in L. lia.
    + intros j J. rewrite Nat.add_succ_comm. apply (Before (S j)). lia.
    + rewrite Nat.add_succ_comm. exact Here.
Qed.

Lemma search_inv r t p st' :
  search r t p = Some st' ->
  exists i st,
    i <= length t /\
    (forall j, j < i -> m r (mkThread (skipn j t) (p + j) []) = []) /\
    hd_error (m r (mkThread (skipn i t) (p + i) [])) = Some st /\
    st' = set_cap 0 (p + i) st.
Proof.
  revert p. induction t as [|a t IH]; intros p; cbn [search];
    destruct (m r (mkThread _ p [])) as [|x xs] eqn:E.
  - discriminate.
  - intros [= <-]. exists 0, x. rewrite Nat.add_0_r. cbn [skipn]. rewrite E.
    repeat split; auto. intros j J. lia.
  - intros S. destruct (IH _ S) as (i & st & L & Before & Here & ->).
    exists (Datatypes.S i), st. rewrite <- Nat.add_succ_comm.
    repeat split; auto.
    + simpl. lia.
    + intros [|j] J.
      * rewrite Nat.add_0_r. exact E.
      * rewrite <- Nat.add_succ_comm. apply Before. lia.
  - intros [= <-]. exists 0, x. rewrite Nat.add_0_r. cbn [skipn]. rewrite E.
    repeat split; auto. simpl; lia. intros j J. lia.
Qed.

(** ** [semverify] *)

Lemma semverify_of_match s q P N H g0 :
  s = q ++ describe_string P N H ->
  search semverPattern s 0 =
    Some (set_cap g0 (length q)
            (tail_thread
               (mkThread (b "-" ++ N ++ b "-g" ++ H) (length q + length P)
                         [(1, (length q, length q + length P))]) N)) ->
  g0 = 0 -> length H = 14 ->
  semverify s = P ++ b "." ++ N ++ b "+" ++ H.
Proof.
  intros Es S -> HL. unfold semverify, FindStringSubmatchIndex. rewrite S.
  change (NumSubexp semverPattern) with 3.
  unfold set_cap, tail_thread, semverTemplate.
  cbn [seq map caps pos get_cap Nat.eqb ExpandString nth app].
  rewrite (slice_at s q P (b "-" ++ N ++ b "-g" ++ H)); auto.
  rewrite (slice_at s (q ++ P ++ b "-") N (b "-g" ++ H)).
  - rewrite (slice_at s (q ++ P ++ b "-" ++ N ++ b "-g") H []).
    + rewrite <- !app_assoc. reflexivity.
    + rewrite Es. unfold describe_string. rewrite <- !app_assoc, app_nil_r.
      reflexivity.
    + rewrite !length_app. simpl. lia.
    + pose proof (f_equal (@length ascii) Es) as EL.
      unfold describe_string in EL. rewrite !length_app in EL. simpl in EL.
      lia.
  - rewrite Es. unfold describe_string. rewrite <- !app_assoc. reflexivity.
  - rewrite !length_app. simpl. lia.
  - lia.
Qed.

Lemma semverify_matched s st' :
  search semverPattern s 0 = Some st' ->
  exists q P N H,
    s = q ++ describe_string P N H /\
    P <> [] /\ one_line P /\ decimal N /\ hash14 H /\
    semverify s = P ++ b "." ++ N ++ b "+" ++ H.
Proof.
  intros S. destruct (search_inv _ _ _ _ S) as (i & st & L & _ & Here & ->).
  apply semver_anchored_sound in Here as (P & N & H & E & Pne & OP & DN & HH & ->).
  assert (Lq : length (firstn i s) = i) by (rewrite length_firstn; lia).
  assert (Es : s = firstn i s ++ describe_string P N H)
    by (rewrite <- E; symmetry; apply firstn_skipn).
  exists (firstn i s), P, N, H. repeat split; try assumption;
    try (apply DN || apply HH).
  apply (semverify_of_match s (firstn i s) P N H 0); auto; [|apply HH].
  rewrite S, Lq. reflexivity.
Qed.

Lemma semverify_unmatched s :
  search semverPattern s 0 = None -> semverify s = s.
Proof.
  intros S. unfold semverify, FindStringSubmatchIndex. rewrite S. reflexivity.
Qed.

(** Only the last line of the input can match, and the match starts at
    the head of that line. *)
Lemma semverify_last_line q P N H :
  q = [] \/ (exists q', q = q' ++ [nl]) ->
  P <> [] -> one_line P -> decimal N -> hash14 H ->
  semverify (q ++ describe_string P N H) = P ++ b "." ++ N ++ b "+" ++ H.
Proof.
  intros Q Pne OP DN HH.
  apply (semverify_of_match _ q P N H 0); auto; [|apply HH].
  change (length q) with (0 + length q) at 1 2 3.
  rewrite <- Nat.add_assoc.
  apply search_at.
  - rewrite length_app. lia.
  - intros j J. destruct Q as [->|[q' ->]]; [simpl in J; lia|].
    destruct (m semverPattern _) as [|x xs] eqn:E; [reflexivity|exfalso].
    assert (Hx : hd_error (m semverPattern
                   (mkThread (skipn j ((q' ++ [nl]) ++ describe_string P N H))
                             (0 + j) [])) = Some x)
      by (rewrite E; reflexivity).
    apply semver_anchored_sound in Hx as (P' & N' & H' & E' & _ & OP' & DN' & HH' & _).
    pose proof (describe_string_one_line P' N' H' OP' DN' HH') as O.
    rewrite <- E' in O. unfold one_line in O.
    rewrite length_app in J. simpl in J.
    rewrite <- app_assoc, skipn_within_app in O by lia.
    rewrite !forallb_app in O. cbn in O.
    rewrite andb_false_r in O. discriminate.
  - rewrite skipn_length_app. rewrite Nat.add_assoc.
    apply semver_anchored_complete; assumption.
Qed.

Lemma last_byte_of_14 (H : bytes) :
  length H = 14 -> exists H' c, H = H' ++ [c].
Proof.
  intros L. destruct (exists_last (l := H)) as (H' & c & E).
  - intros ->. discriminate.
  - eauto.
Qed.

(** A string whose 15th byte from the end is [+] has no match. *)
Lemma no_match_after_plus X H0 :
  length H0 = 14 -> search semverPattern (X ++ b "+" ++ H0) 0 = None.
Proof.
  intros L0. destruct (search semverPattern _ 0) as [st|] eqn:S; [exfalso|reflexivity].
  apply semverify_matched in S as (q & P & N & H & E & _ & _ & _ & [HL _] & _).
  unfold describe_string in E.
  change (b "-g") with ([ "-"%char ] ++ [ "g"%char ]) in E.
  assert (E1 : (X ++ b "+") ++ H0 = ((q ++ P ++ b "-" ++ N ++ ["-"%char]) ++ ["g"%char]) ++ H)
    by (rewrite <- !app_assoc; rewrite <- !app_assoc in E; exact E).
  apply app_same_length_tail in E1 as [E1 _]; [|lia].
  apply app_same_length_tail in E1 as [_ E1]; [|reflexivity].
  discriminate.
Qed.

(** A string that ends with [-dirty] has no match: [y] is not a
    hexadecimal digit. *)
Lemma no_match_dirty v : search semverPattern (v ++ b "-dirty") 0 = None.
Proof.
  destruct (search semverPattern _ 0) as [st|] eqn:S; [exfalso|reflexivity].
  apply semverify_matched in S as (q & P & N & H & E & _ & _ & _ & [HL Hh] & _).
  destruct (last_byte_of_14 H HL) as (H' & c & ->).
  unfold describe_string in E.
  assert (E1 : (v ++ b "-dirt") ++ ["y"%char]
               = (q ++ P ++ b "-" ++ N ++ b "-g" ++ H') ++ [c])
    by (rewrite <- !app_assoc; exact E).
  apply app_same_length_tail in E1 as [_ E1]; [|reflexivity].
  injection E1 as <-.
  rewrite forallb_app in Hh. cbn in Hh. rewrite andb_false_r in Hh. discriminate.
Qed.

Lemma semverify_output_unmatched x : search semverPattern (semverify x) 0 = None.
Proof.
  destruct (search semverPattern x 0) as [st|] eqn:S.
  - apply semverify_matched in S as (q & P & N & H & _ & _ & _ & _ & [HL _] & ->).
    rewrite (app_assoc P), (app_assoc (P ++ b ".")).
    apply no_match_after_plus. exact HL.
  - rewrite (semverify_unmatched x S). exact S.
Qed.

(** ** [goVersionPattern] *)

Lemma star_loop_last step fuel st :
  exists l, star_loop step fuel st = l ++ [st].
Proof.
  destruct fuel as [|fuel]; simpl.
  - exists []. reflexivity.
  - eexists. reflexivity.
Qed.

Lemma star_loop_caps step :
  (forall st st', In st' (step st) -> caps st' = caps st) ->
  forall fuel st st', In st' (star_loop step fuel st) -> caps st' = caps st.
Proof.
  intros Step. induction fuel as [|fuel IH]; intros st st' I; simpl in I.
  - destruct I as [<-|[]]. reflexivity.
  - apply in_app_or in I as [I|[<-|[]]]; [|reflexivity].
    apply in_flat_map in I as (x & Ix & I).
    apply filter_In in Ix as [Ix _].
    rewrite (IH _ _ I). apply Step. exact Ix.
Qed.

Lemma goVersionTail_step_caps st st' :
  In st' (m (Cat (Cls not_nl) (Plus (Cls is_digit))) st) -> caps st' = caps st.
Proof.
  rewrite m_Cat. intros I. apply in_flat_map in I as (x & Ix & I).
  rewrite m_Plus_Cls in I. apply in_map_iff in I as (k & <- & _).
  destruct st as [[|a t] q cs]; [destruct Ix|].
  rewrite m_Cls_cons in Ix. destruct (not_nl a); [|destruct Ix].
  destruct Ix as [<-|[]]. reflexivity.
Qed.

(** The optional components after the minor number never make the
    match fail and leave the groups as they are. *)
Lemma hd_goVersionTail st :
  exists st', hd_error (m goVersionTail st) = Some st' /\ caps st' = caps st.
Proof.
  unfold goVersionTail. cbn [m].
  destruct (star_loop_last (m (Cat (Cls not_nl) (Plus (Cls is_digit))))
                           (length (rest st)) st) as [l E].
  destruct (star_loop _ _ st) as [|x xs] eqn:S.
  - destruct l; discriminate.
  - exists x. split; [reflexivity|].
    apply (star_loop_caps _ goVersionTail_step_caps (length (rest st))).
    rewrite S. left. reflexivity.
Qed.

Ltac split_ifs :=
  simpl;
  repeat (match goal with
          | |- context [if ?c then _ else _] => destruct c; simpl
          end);
  reflexivity.

Lemma hd_goVersionPattern u p :
  match token_at u with
  | Some (d, ds) =>
      exists st,
        hd_error (m goVersionPattern (mkThread u p [])) = Some st /\
        caps st = [(2, (p + 1 + 1 + 1 + 1, p + 1 + 1 + 1 + 1 + length ds));
                   (1, (p + 1 + 1, p + 1 + 1 + 1))]
  | None => m goVersionPattern (mkThread u p []) = []
  end.
Proof.
  change goVersionPattern with
    (Cat (Lit "g") (Cat (Lit "o") (Cat (Cap 1 (Cls is_digit19))
       (Cat (Lit ".") (Cat (Cap 2 (Plus (Cls is_digit))) goVersionTail))))).
  destruct u as [|c1 u]; [reflexivity|].
  rewrite m_Cat, m_Lit_cons.
  destruct u as [|c2 u]; [split_ifs|].
  destruct u as [|d u]; [split_ifs|].
  destruct u as [|c3 t]; [split_ifs|].
  cbn [token_at].
  destruct (Ascii.eqb c1 "g"); [|reflexivity].
  cbn [flat_map andb]. rewrite app_nil_r, m_Cat, m_Lit_cons.
  destruct (Ascii.eqb c2 "o"); [|reflexivity].
  cbn [flat_map andb]. rewrite app_nil_r, m_Cat, m_Cap, m_Cls_cons.
  destruct (is_digit19 d); [|reflexivity].
  cbn [map flat_map andb pos]. rewrite app_nil_r.
  unfold set_cap. cbn [rest pos caps].
  rewrite m_Cat, m_Lit_cons.
  destruct (Ascii.eqb c3 "."); [|reflexivity].
  cbn [flat_map andb]. rewrite app_nil_r, m_Cat, m_Cap, m_Plus_Cls.
  cbn [rest pos].
  pose proof (run_le_length is_digit t) as Rle.
  destruct (run is_digit t) as [|k] eqn:Rk; [reflexivity|].
  cbn [Nat.leb downto map flat_map].
  set (st2 := set_cap 2 _ _).
  destruct (hd_goVersionTail st2) as (st' & Hd & Cs).
  exists st'. split.
  - destruct (m goVersionTail st2) as [|x xs]; [discriminate|].
    exact Hd.
  - rewrite Cs. unfold st2, set_cap, advance. cbn [rest pos caps].
    rewrite length_firstn, Nat.min_l by lia. reflexivity.
Qed.

Lemma token_at_sound u d ds :
  token_at u = Some (d, ds) ->
  exists tl,
    u = token_string d ds tl /\ is_digit19 d = true /\ decimal ds /\
    no_digit_ahead tl.
Proof.
  destruct u as [|c1 [|c2 [|d' [|c3 t]]]]; try discriminate. cbn [token_at].
  destruct (Ascii.eqb c1 "g") eqn:E1; [|discriminate].
  destruct (Ascii.eqb c2 "o") eqn:E2; [|discriminate].
  destruct (is_digit19 d') eqn:Ed; [|discriminate].
  destruct (Ascii.eqb c3 ".") eqn:E3; [|discriminate].
  destruct (1 <=? run is_digit t) eqn:Ek; [|discriminate].
  cbn [andb]. intros [= <- <-].
  apply Ascii.eqb_eq in E1, E2, E3. subst c1 c2 c3. apply Nat.leb_le in Ek.
  pose proof (run_le_length is_digit t) as Rle.
  exists (skipn (run is_digit t) t). repeat split.
  - unfold token_string. change (b "go") with ["g"%char; "o"%char].
    change (b ".") with ["."%char]. cbn [app]. rewrite firstn_skipn. reflexivity.
  - exact Ed.
  - intros F. apply (f_equal (@length ascii)) in F.
    rewrite length_firstn in F. simpl in F. lia.
  - apply run_firstn_all.
  - unfold no_digit_ahead. destruct (skipn (run is_digit t) t) eqn:S; [exact I|].
    apply (run_skipn_head is_digit t _ _ S).
Qed.

Lemma token_at_complete d ds tl :
  is_digit19 d = true -> decimal ds -> no_digit_ahead tl ->
  token_at (token_string d ds tl) = Some (d, ds).
Proof.
  intros Ed [Ne Dd] Tl. unfold token_string.
  change (b "go") with ["g"%char; "o"%char]. change (b ".") with ["."%char].
  cbn [app token_at Ascii.eqb Bool.eqb andb]. rewrite Ed. cbn [andb].
  assert (R : run is_digit (ds ++ tl) = length ds).
  { destruct tl as [|c tl].
    - rewrite app_nil_r. apply run_all. exact Dd.
    - apply run_app_stop; assumption. }
  rewrite R, firstn_length_app.
  destruct ds; [congruence|]. reflexivity.
Qed.

Lemma search_goVersion pre t :
  match goToken t with
  | Some (d, ds) =>
      exists st a0 e a1 a2,
        search goVersionPattern t (length pre) = Some st /\
        caps st = [(0, (a0, e)); (2, (a2, a2 + length ds)); (1, (a1, a1 + 1))] /\
        slice (pre ++ t) a1 (a1 + 1) = [d] /\
        slice (pre ++ t) a2 (a2 + length ds) = ds
  | None => search goVersionPattern t (length pre) = None
  end.
Proof.
  revert pre. induction t as [|a t IH]; intros pre.
  - cbn [goToken token_at search].
    pose proof (hd_goVersionPattern [] (length pre)) as Hd. cbn [token_at] in Hd.
    rewrite Hd. reflexivity.
  - cbn [goToken search].
    pose proof (hd_goVersionPattern (a :: t) (length pre)) as Hd.
    destruct (token_at (a :: t)) as [[d ds]|] eqn:Tk.
    + destruct Hd as (st & Hd & Cs).
      destruct (m goVersionPattern _) as [|x xs]; [discriminate|].
      injection Hd as ->.
      apply token_at_sound in Tk as (tl & E & _ & _ & _).
      exists (set_cap 0 (length pre) st), (length pre), (pos st),
             (length pre + 1 + 1), (length pre + 1 + 1 + 1 + 1).
      split; [reflexivity|]. split; [|split].
      * unfold set_cap. cbn [caps]. rewrite Cs. reflexivity.
      * apply (slice_at _ (pre ++ b "go") [d] (b "." ++ ds ++ tl)); auto.
        -- rewrite E. unfold token_string. rewrite <- !app_assoc. reflexivity.
        -- rewrite length_app. simpl. lia.
      * apply (slice_at _ (pre ++ b "go" ++ [d] ++ b ".") ds tl); auto.
        -- rewrite E. unfold token_string. rewrite <- !app_assoc. reflexivity.
        -- rewrite length_app. simpl. lia.
    + rewrite Hd. specialize (IH (pre ++ [a])).
      rewrite length_app, <- app_assoc in IH. cbn [length app] in IH.
      rewrite Nat.add_1_r in IH. exact IH.
Qed.

Lemma FindStringSubmatch_goVersion s :
  match goToken s with
  | Some (d, ds) =>
      exists whole, FindStringSubmatch goVersionPattern s = [whole; [d]; ds]
  | None => FindStringSubmatch goVersionPattern s = []
  end.
Proof.
  pose proof (search_goVersion [] s) as S. cbn [length app] in S.
  unfold FindStringSubmatch, FindStringSubmatchIndex.
  destruct (goToken s) as [[d ds]|].
  - destruct S as (st & a0 & e & a1 & a2 & -> & Cs & S1 & S2).
    rewrite Cs. change (NumSubexp goVersionPattern) with 2.
    cbn [seq map get_cap Nat.eqb]. rewrite S1, S2. eexists. reflexivity.
  - rewrite S. reflexivity.
Qed.

(** ** Numeric conversions *)

Lemma digit_not_sign c :
  is_digit c = true -> Ascii.eqb c "-" = false /\ Ascii.eqb c "+" = false.
Proof.
  destruct c as [[] [] [] [] [] [] [] []]; vm_compute; intuition congruence.
Qed.

Lemma fold_digits_bounds ds :
  forallb is_digit ds = true ->
  forall acc, (0 <= acc)%Z ->
  (acc * 10 ^ Z.of_nat (length ds)
   <= fold_left (fun acc c => acc * 10 + digit_value c) ds acc
   < (acc + 1) * 10 ^ Z.of_nat (length ds))%Z.
Proof.
  induction ds as [|c ds IH]; intros D acc A.
  - simpl. lia.
  - cbn [forallb] in D. apply andb_prop in D as [Dc D].
    pose proof (digit_value_range c Dc) as Rc.
    cbn [fold_left length]. rewrite Nat2Z.inj_succ, Z.pow_succ_r by lia.
    specialize (IH D (acc * 10 + digit_value c)%Z ltac:(lia)).
    assert (0 < 10 ^ Z.of_nat (length ds))%Z by (apply Z.pow_pos_nonneg; lia).
    nia.
Qed.

Lemma digits_value_bounds ds :
  forallb is_digit ds = true ->
  (0 <= digits_value ds < 10 ^ Z.of_nat (length ds))%Z.
Proof.
  intros D. pose proof (fold_digits_bounds ds D 0%Z ltac:(lia)) as B.
  unfold digits_value. lia.
Qed.

Lemma Atoi_decimal ds :
  decimal ds ->
  Atoi ds = if (digits_value ds <=? maxInt)%Z then Some (digits_value ds) else None.
Proof.
  intros [Ne D]. destruct ds as [|c t]; [congruence|].
  pose proof (digits_value_bounds _ D) as B.
  unfold Atoi. pose proof D as D'. cbn [forallb] in D'.
  apply andb_prop in D' as [Dc _].
  destruct (digit_not_sign c Dc) as [-> ->].
  rewrite D.
  replace (minInt <=? digits_value (c :: t))%Z with true
    by (symmetry; apply Z.leb_le; unfold minInt; lia).
  reflexivity.
Qed.

Lemma mustAtoi_major d :
  is_digit19 d = true -> mustAtoi [d] = Ret (digit_value d).
Proof.
  destruct d as [[] [] [] [] [] [] [] []]; vm_compute; congruence.
Qed.

Lemma wrap_in_range z : (minInt <= z <= maxInt)%Z -> wrap z = z.
Proof.
  unfold wrap, minInt, maxInt. intros R.
  rewrite Z.mod_small; lia.
Qed.

(** [parseToolVersion] reads the leftmost token. *)
Lemma parseToolVersion_goToken s :
  parseToolVersion s =
  match goToken s with
  | Some (d, ds) =>
      major <- mustAtoi [d] ;;
      minor <- mustAtoi ds ;;
      Ret (wrap (major * 10 + minor)%Z)
  | None => Ret toolVersionUnknown
  end.
Proof.
  unfold parseToolVersion. pose proof (FindStringSubmatch_goVersion s) as F.
  destruct (goToken s) as [[d ds]|].
  - destruct F as [whole ->]. reflexivity.
  - rewrite F. reflexivity.
Qed.

(** ** The leftmost token, declaratively *)

Lemma goToken_here u x : token_at u = Some x -> goToken u = Some x.
Proof.
  intros T. destruct u; cbn [goToken]; rewrite T; reflexivity.
Qed.

Lemma goToken_next a u : token_at (a :: u) = None -> goToken (a :: u) = goToken u.
Proof.
  intros T. cbn [goToken]. rewrite T. reflexivity.
Qed.

Lemma goToken_sound s d ds :
  goToken s = Some (d, ds) -> is_digit19 d = true /\ decimal ds.
Proof.
  induction s as [|a s IH].
  - cbn [goToken token_at]. discriminate.
  - destruct (token_at (a :: s)) as [x|] eqn:T.
    + rewrite (goToken_here _ _ T). intros [= ->].
      apply token_at_sound in T as (tl & _ & D & DS & _). auto.
    + rewrite (goToken_next _ _ T). exact IH.
Qed.

Lemma goToken_none s :
  (forall pre d ds tl,
      is_digit19 d = true -> decimal ds -> s <> pre ++ token_string d ds tl) ->
  goToken s = None.
Proof.
  induction s as [|a s IH]; intros No.
  - reflexivity.
  - destruct (token_at (a :: s)) as [[d ds]|] eqn:T.
    + apply token_at_sound in T as (tl & E & D & DS & _).
      exfalso. apply (No [] d ds tl D DS). exact E.
    + rewrite (goToken_next _ _ T). apply IH.
      intros pre d ds tl D DS E. apply (No (a :: pre) d ds tl D DS).
      rewrite E. reflexivity.
Qed.

Lemma goToken_leftmost pre d ds tl :
  is_digit19 d = true -> decimal ds -> no_digit_ahead tl ->
  (forall pre' d' ds' tl',
      length pre' < length pre -> is_digit19 d' = true -> decimal ds' ->
      pre ++ token_string d ds tl <> pre' ++ token_string d' ds' tl') ->
  goToken (pre ++ token_string d ds tl) = Some (d, ds).
Proof.
  intros D DS Tl. induction pre as [|a pre IH]; intros Left.
  - apply goToken_here, token_at_complete; assumption.
  - cbn [app]. destruct (token_at (a :: pre ++ token_string d ds tl))
      as [[d' ds']|] eqn:T.
    + apply token_at_sound in T as (tl' & E & D' & DS' & _).
      exfalso. apply (Left [] d' ds' tl'); auto. simpl. lia.
    + rewrite (goToken_next _ _ T). apply IH.
      intros pre' d' ds' tl' L D' DS' E.
      apply (Left (a :: pre') d' ds' tl'); auto.
      * simpl. lia.
      * cbn [app]. rewrite E. reflexivity.
Qed.

Lemma parseToolVersion_in_range s d ds :
  goToken s = Some (d, ds) ->
  (digit_value d * 10 + digits_value ds <= maxInt)%Z ->
  parseToolVersion s = Ret (digit_value d * 10 + digits_value ds)%Z /\
  (10 <= digit_value d * 10 + digits_value ds)%Z.
Proof.
  intros G R. destruct (goToken_sound _ _ _ G) as [D DS].
  pose proof (digit19_value d D) as Vd.
  pose proof (digits_value_bounds ds (proj2 DS)) as Vs.
  rewrite parseToolVersion_goToken, G, (mustAtoi_major d D).
  unfold mustAtoi. rewrite (Atoi_decimal ds DS).
  replace (digits_value ds <=? maxInt)%Z with true
    by (symmetry; apply Z.leb_le; lia).
  cbn [bind]. rewrite wrap_in_range by (unfold minInt; lia).
  split; [reflexivity|lia].
Qed.

(** ** [finalVersion] *)

Lemma semverify_ends_dirty raw :
  ends_with (semverify raw) (b "-dirty") <-> ends_with raw (b "-dirty").
Proof.
  split.
  - destruct (search semverPattern raw 0) as [st|] eqn:S.
    + apply semverify_matched in S as (q & P & N & H & _ & _ & _ & _ & [HL Hh] & ->).
      intros [front E]. exfalso.
      destruct (last_byte_of_14 H HL) as (H' & c & ->).
      assert (E1 : (P ++ b "." ++ N ++ b "+" ++ H') ++ [c]
                   = (front ++ b "-dirt") ++ ["y"%char])
        by (rewrite <- !app_assoc; exact E).
      apply app_same_length_tail in E1 as [_ E1]; [|reflexivity].
      injection E1 as ->.
      rewrite forallb_app in Hh. cbn in Hh. rewrite andb_false_r in Hh.
      discriminate.
    + rewrite (semverify_unmatched raw S). auto.
  - intros [front ->]. rewrite (semverify_unmatched _ (no_match_dirty front)).
    exists front. reflexivity.
Qed.

(** * The claims *)

(** C1 (as the code has it).  A string [<prefix>-<N>-g<H>] whose prefix
    is non-empty and holds no newline, with [N] one or more decimal
    digits and [H] exactly 14 lower-case hexadecimal digits, is rewritten
    to [<prefix>.<N>+<H>]; a string that does not end in that shape is
    returned unchanged. *)
Theorem semverify_describe_shape :
  forall s : bytes,
    (forall P N H,
        s = describe_string P N H ->
        P <> [] -> one_line P -> decimal N -> hash14 H ->
        semverify s = P ++ b "." ++ N ++ b "+" ++ H)
    /\
    ((forall q P N H,
         P <> [] -> one_line P -> decimal N -> hash14 H ->
         s <> q ++ describe_string P N H) ->
     semverify s = s).
Proof.
  intros s. split.
  - intros P N H -> Pne OP DN HH.
    apply (semverify_last_line [] P N H); auto.
  - intros No. destruct (search semverPattern s 0) as [st|] eqn:S.
    + exfalso.
      apply semverify_matched in S as (q & P & N & H & E & Pne & OP & DN & HH & _).
      exact (No q P N H Pne OP DN HH E).
    + apply semverify_unmatched. exact S.
Qed.

Lemma semverify_describe_shape_witness :
  semverify (b "v1.2.0-0-gabc12300000000") = b "v1.2.0.0+abc12300000000"
  /\ semverify (b "v1.2.0") = b "v1.2.0".
Proof.
  split.
  - apply (proj1 (semverify_describe_shape (b "v1.2.0-0-gabc12300000000"))
                 (b "v1.2.0") (b "0") (b "abc12300000000")).
    + reflexivity.
    + discriminate.
    + reflexivity.
    + split; [discriminate|reflexivity].
    + split; reflexivity.
  - apply (proj2 (semverify_describe_shape (b "v1.2.0"))).
    intros q P N H _ _ _ [HL _] E.
    apply (f_equal (@length ascii)) in E. unfold describe_string in E.
    rewrite !length_app, HL in E. simpl in E. lia.
Defined.

(** C1 fails as stated: with an empty prefix the pattern does not match
    and the input comes back as it is, and with a newline in the prefix
    only the last line is kept. *)
Lemma semverify_any_prefix_fails :
  (decimal (b "5") /\ hash14 (b "0123456789abcd") /\
   semverify (describe_string [] (b "5") (b "0123456789abcd"))
   <> [] ++ b "." ++ b "5" ++ b "+" ++ b "0123456789abcd")
  /\
  (decimal (b "5") /\ hash14 (b "0123456789abcd") /\
   semverify (describe_string (b "a" ++ [nl] ++ b "b") (b "5") (b "0123456789abcd"))
   <> (b "a" ++ [nl] ++ b "b") ++ b "." ++ b "5" ++ b "+" ++ b "0123456789abcd").
Proof.
  split; (split; [split; [discriminate|reflexivity]|]);
    (split; [split; reflexivity|]); vm_compute; discriminate.
Qed.

(** C8.  The output of [semverify] never matches [semverPattern] again,
    with or without a [-dirty] suffix, so a second pass changes
    neither. *)
Theorem semverify_idempotent :
  forall x : bytes,
    FindStringSubmatchIndex semverPattern (semverify x) = None /\
    semverify (semverify x) = semverify x /\
    FindStringSubmatchIndex semverPattern (semverify x ++ b "-dirty") = None /\
    semverify (semverify x ++ b "-dirty") = semverify x ++ b "-dirty".
Proof.
  intros x.
  pose proof (semverify_output_unmatched x) as S1.
  pose proof (no_match_dirty (semverify x)) as S2.
  repeat split.
  - unfold FindStringSubmatchIndex. rewrite S1. reflexivity.
  - apply semverify_unmatched. exact S1.
  - unfold FindStringSubmatchIndex. rewrite S2. reflexivity.
  - apply semverify_unmatched. exact S2.
Qed.

(** C2 (as the code has it).  When the leftmost token [go<d>.<digits>]
    of the input has a single major digit [d] from 1 to 9, a longest run
    of minor digits, and an encoded value that fits an [int],
    [parseToolVersion] returns [d*10 + minor]; an input that holds no
    such token yields the sentinel. *)
Theorem parseToolVersion_leftmost_token :
  forall s : bytes,
    (forall pre d ds tl,
        s = pre ++ token_string d ds tl ->
        is_digit19 d = true -> decimal ds -> no_digit_ahead tl ->
        (forall pre' d' ds' tl',
            length pre' < length pre -> is_digit19 d' = true -> decimal ds' ->
            s <> pre' ++ token_string d' ds' tl') ->
        (digit_value d * 10 + digits_value ds <= maxInt)%Z ->
        parseToolVersion s = Ret (digit_value d * 10 + digits_value ds)%Z)
    /\
    ((forall pre d ds tl,
         is_digit19 d = true -> decimal ds -> s <> pre ++ token_string d ds tl) ->
     parseToolVersion s = Ret toolVersionUnknown).
Proof.
  intros s. split.
  - intros pre d ds tl -> D DS Tl Left R.
    apply parseToolVersion_in_range; [|exact R].
    apply goToken_leftmost; assumption.
  - intros No. rewrite parseToolVersion_goToken, (goToken_none s No).
    reflexivity.
Qed.

Lemma parseToolVersion_leftmost_token_witness :
  parseToolVersion (b "go1.21.3") = Ret 31%Z
  /\ parseToolVersion (b "tip") = Ret toolVersionUnknown.
Proof.
  split.
  - apply (proj1 (parseToolVersion_leftmost_token (b "go1.21.3"))
                 [] "1"%char (b "21") (b ".3")).
    + reflexivity.
    + reflexivity.
    + split; [discriminate|reflexivity].
    + reflexivity.
    + intros pre' d' ds' tl' L. simpl in L. lia.
    + vm_compute. discriminate.
  - apply (proj2 (parseToolVersion_leftmost_token (b "tip"))).
    intros pre d ds tl _ [Ne _] E.
    apply (f_equal (@length ascii)) in E. unfold token_string in E.
    rewrite !length_app in E. simpl in E. lia.
Defined.

(** C2 fails as stated: a major number of two digits is a token of the
    shape [go<major>.<minor>], yet the pattern takes one digit only and
    the sentinel comes back instead of [10*10 + 5]; and next to the
    largest [int] the sum wraps around. *)
Lemma parseToolVersion_two_digit_major :
  (parseToolVersion (b "go10.5") = Ret toolVersionUnknown
   /\ toolVersionUnknown <> (10 * 10 + 5)%Z)
  /\
  (parseToolVersion (b "go9.9223372036854775807") = Ret (-9223372036854775719)%Z
   /\ (-9223372036854775719 <> 9 * 10 + 9223372036854775807)%Z).
Proof.
  split; (split; [vm_compute; reflexivity|discriminate]).
Qed.

(** C9 (as the code has it).  When the minor number has at most 18
    digits, [parseToolVersion] returns the sentinel 0 or a value of at
    least 10, and it returns the sentinel exactly when the pattern does
    not match. *)
Theorem parseToolVersion_sentinel_or_real :
  forall s : bytes,
    (forall whole major minor,
        FindStringSubmatch goVersionPattern s = [whole; major; minor] ->
        length minor <= 18) ->
    exists v : toolVersion,
      parseToolVersion s = Ret v /\
      (v = toolVersionUnknown \/ (10 <= v)%Z) /\
      (v = toolVersionUnknown <-> FindStringSubmatch goVersionPattern s = []).
Proof.
  intros s Short. pose proof (FindStringSubmatch_goVersion s) as F.
  destruct (goToken s) as [[d ds]|] eqn:G.
  - destruct F as [whole F]. specialize (Short _ _ _ F).
    destruct (goToken_sound _ _ _ G) as [D DS].
    pose proof (digit19_value d D) as Vd.
    pose proof (digits_value_bounds ds (proj2 DS)) as Vs.
    assert (P18 : (10 ^ Z.of_nat (length ds) <= 10 ^ 18)%Z)
      by (apply Z.pow_le_mono_r; lia).
    destruct (parseToolVersion_in_range s d ds G) as [E Ge].
    + unfold maxInt. lia.
    + exists (digit_value d * 10 + digits_value ds)%Z.
      split; [exact E|]. split; [right; exact Ge|].
      unfold toolVersionUnknown. rewrite F. split; [lia|discriminate].
  - exists toolVersionUnknown. rewrite parseToolVersion_goToken, G, F.
    repeat split; auto.
Qed.

Lemma parseToolVersion_sentinel_or_real_witness :
  exists v : toolVersion,
    parseToolVersion (b "go1.4.3") = Ret v /\
    (v = toolVersionUnknown \/ (10 <= v)%Z) /\
    (v = toolVersionUnknown <-> FindStringSubmatch goVersionPattern (b "go1.4.3") = []).
Proof.
  apply (parseToolVersion_sentinel_or_real (b "go1.4.3")).
  intros whole major minor E. vm_compute in E.
  injection E as _ _ <-. simpl. lia.
Defined.

(** C9 fails as stated: [go1.0] is encoded as 10, below 11, and a minor
    number next to the largest [int] wraps around to a negative value. *)
Lemma parseToolVersion_go1_0 :
  (parseToolVersion (b "go1.0") = Ret 10%Z /\
   ~ (10 = toolVersionUnknown \/ 11 <= 10)%Z)
  /\
  (parseToolVersion (b "go1.9223372036854775807") = Ret (-9223372036854775799)%Z /\
   (-9223372036854775799 < 0)%Z).
Proof.
  split; (split; [vm_compute; reflexivity|]).
  - unfold toolVersionUnknown. lia.
  - lia.
Qed.

(** C10.  The claim holds for every minor number within the range of
    an [int]; with a longer minor number [strconv.Atoi] reports a range
    error and [mustAtoi] panics. *)
Theorem parseToolVersion_panics :
  parseToolVersion (b "go1.99999999999999999999") = Panic.
Proof. vm_compute. reflexivity. Qed.

(** C3.  Up to the encoded version 14 a setting is written
    [-X <pkg>.<key> <value>], above 14 it is written
    [-X <pkg>.<key>=<value>]. *)
Theorem linkFlag_syntax :
  forall (v : toolVersion) (key value : bytes),
    ((v <= 14)%Z ->
     linkFlag v key value = b "-X " ++ versionPackage ++ b "." ++ key ++ b " " ++ value)
    /\
    ((v > 14)%Z ->
     linkFlag v key value = b "-X " ++ versionPackage ++ b "." ++ key ++ b "=" ++ value).
Proof.
  intros v key value. unfold linkFlag. split; intros V.
  - replace (v <=? 14)%Z with true by (symmetry; apply Z.leb_le; lia).
    reflexivity.
  - replace (v <=? 14)%Z with false by (symmetry; apply Z.leb_gt; lia).
    reflexivity.
Qed.

Lemma linkFlag_syntax_witness :
  linkFlag 14%Z (b "version") (b "v1.2.0")
  = b "-X github.com/gravitational/version.version v1.2.0"
  /\ linkFlag 15%Z (b "version") (b "v1.2.0")
     = b "-X github.com/gravitational/version.version=v1.2.0".
Proof.
  split.
  - apply (proj1 (linkFlag_syntax 14%Z (b "version") (b "v1.2.0"))). lia.
  - apply (proj2 (linkFlag_syntax 15%Z (b "version") (b "v1.2.0"))). lia.
Defined.

(** C5 (as the code has it).  For a non-empty described version, a
    dirty tree appends [-dirty] to the normalized string, and a clean
    tree appends nothing: the final version then ends with [-dirty] only
    when the described version itself does.  An empty version, from an
    empty describe output or from a failed describe query, stays empty in
    either state. *)
Theorem finalVersion_dirty_suffix :
  forall raw : bytes,
    (raw <> [] ->
     finalVersion dirty (raw, None) = semverify raw ++ b "-dirty" /\
     ends_with (finalVersion dirty (raw, None)) (b "-dirty") /\
     finalVersion clean (raw, None) = semverify raw /\
     (ends_with (finalVersion clean (raw, None)) (b "-dirty")
      <-> ends_with raw (b "-dirty")))
    /\
    (raw = [] ->
     finalVersion dirty (raw, None) = [] /\
     finalVersion clean (raw, None) = [])
    /\
    (forall e : toolError,
        finalVersion dirty (raw, Some e) = [] /\
        finalVersion clean (raw, Some e) = []).
Proof.
  intros raw. split; [|split].
  - intros Ne.
    assert (D : finalVersion dirty (raw, None) = semverify raw ++ b "-dirty")
      by (destruct raw; [congruence|reflexivity]).
    assert (C : finalVersion clean (raw, None) = semverify raw)
      by (destruct raw; [congruence|reflexivity]).
    rewrite D, C. repeat split.
    + exists (semverify raw). reflexivity.
    + apply semverify_ends_dirty.
    + apply semverify_ends_dirty.
  - intros ->. split; reflexivity.
  - intros e. split; reflexivity.
Qed.

Lemma finalVersion_dirty_suffix_witness :
  (b "v1.2.0-3-g0123456789abcd" <> [] /\
   finalVersion dirty (b "v1.2.0-3-g0123456789abcd", None)
   = semverify (b "v1.2.0-3-g0123456789abcd") ++ b "-dirty" /\
   ends_with (finalVersion dirty (b "v1.2.0-3-g0123456789abcd", None)) (b "-dirty") /\
   finalVersion clean (b "v1.2.0-3-g0123456789abcd", None)
   = semverify (b "v1.2.0-3-g0123456789abcd") /\
   (ends_with (finalVersion clean (b "v1.2.0-3-g0123456789abcd", None)) (b "-dirty")
    <-> ends_with (b "v1.2.0-3-g0123456789abcd") (b "-dirty")))
  /\
  (finalVersion dirty ([], None) = [] /\ finalVersion clean ([], None) = []).
Proof.
  split.
  - split; [discriminate|].
    apply (proj1 (finalVersion_dirty_suffix (b "v1.2.0-3-g0123456789abcd"))).
    discriminate.
  - apply (proj1 (proj2 (finalVersion_dirty_suffix []))). reflexivity.
Defined.

(** C5 fails as stated: on a clean tree at the tag [v1.0-dirty] the
    final version ends with [-dirty], and on a dirty tree an empty
    version stays empty. *)
Lemma clean_version_may_end_dirty :
  ends_with (finalVersion clean (b "v1.0-dirty", None)) (b "-dirty")
  /\ ~ ends_with (finalVersion dirty ([], None)) (b "-dirty").
Proof.
  split.
  - exists (b "v1.0"). vm_compute. reflexivity.
  - intros [front E]. apply (f_equal (@length ascii)) in E.
    rewrite length_app in E. simpl in E. lia.
Qed.

(** ** [main] *)

Lemma parseToolVersion_unmatched v :
  FindStringSubmatch goVersionPattern v = [] ->
  parseToolVersion v = Ret toolVersionUnknown.
Proof.
  intros F. unfold parseToolVersion. rewrite F. reflexivity.
Qed.

Lemma goToolVersion_unparseable h out :
  CombinedOutput h (b "go") [b "version"] = (out, None) ->
  unparseable out ->
  goToolVersion h = Ret (toolVersionUnknown, None).
Proof.
  intros C U. unfold goToolVersion. rewrite C. unfold unparseable in U.
  destruct (Split out " ") as [|f0 [|f1 [|build2 fs]]]; try reflexivity.
  rewrite (parseToolVersion_unmatched _ U). reflexivity.
Qed.

(** C6.  A run that prints a line prints the settings [gitCommit] and
    [gitTreeState], both or neither, exactly when the commit ID is not
    empty, then the setting [version] exactly when the final version is
    not empty, and nothing else, joined with single spaces. *)
Theorem main_settings :
  forall (h : Host) (line : bytes),
    main h = Printed line ->
    exists goVersion commitID state version,
      goToolVersion h = Ret (goVersion, None) /\
      git_commitID h (newGit h (flag_pkg h)) = (commitID, None) /\
      git_treeState h (newGit h (flag_pkg h)) = (state, None) /\
      version = finalVersion state (git_version h (newGit h (flag_pkg h)) commitID) /\
      line =
        Join ((if is_empty commitID then []
               else [linkFlag goVersion (b "gitCommit") commitID;
                     linkFlag goVersion (b "gitTreeState") state])
              ++ (if is_empty version then []
                  else [linkFlag goVersion (b "version") version]))
             (b " ").
Proof.
  intros h line. unfold main.
  destruct (is_empty (flag_pkg h)); [discriminate|].
  destruct (goToolVersion h) as [[goVersion [e|]]|]; try discriminate.
  destruct (git_commitID h _) as [commitID [e|]] eqn:Ec; try discriminate.
  destruct (git_treeState h _) as [state [e|]] eqn:Et; try discriminate.
  intros [= <-].
  exists goVersion, commitID, state,
    (finalVersion state (git_version h (newGit h (flag_pkg h)) commitID)).
  repeat split. unfold linkFlags.
  destruct (is_empty commitID), (is_empty (finalVersion _ _)); reflexivity.
Qed.

Lemma main_settings_witness :
  main (sample_host go_1_21 describe_tagged)
  = Printed (b "-X github.com/gravitational/version.gitCommit=0123456789abcdef0123456789abcdef01234567 -X github.com/gravitational/version.gitTreeState=clean -X github.com/gravitational/version.version=v1.2.0")
  /\
  exists goVersion commitID state version,
    goToolVersion (sample_host go_1_21 describe_tagged) = Ret (goVersion, None) /\
    commitID = sample_commit /\ state = clean /\ version = b "v1.2.0" /\
    goVersion = 31%Z.
Proof.
  split; [vm_compute; reflexivity|].
  destruct (main_settings (sample_host go_1_21 describe_tagged) _ eq_refl)
    as (goVersion & commitID & state & version & G & C & T & V & _).
  exists goVersion, commitID, state, version.
  vm_compute in G, C, T, V.
  injection G as <-. injection C as <-. injection T as <-. subst version.
  repeat split; reflexivity.
Defined.

(** C7.  When the describe query fails, whatever the failure, the run
    does not abort: the version is empty, no [version] setting is
    printed, and the [gitCommit] and [gitTreeState] settings are printed
    as they are otherwise. *)
Theorem main_describe_failure :
  forall (h : Host) (goVersion : toolVersion) (commitID : bytes)
         (state : treeState) (out : bytes) (e : toolError),
    is_empty (flag_pkg h) = false ->
    goToolVersion h = Ret (goVersion, None) ->
    git_commitID h (newGit h (flag_pkg h)) = (commitID, None) ->
    git_treeState h (newGit h (flag_pkg h)) = (state, None) ->
    git_version h (newGit h (flag_pkg h)) commitID = (out, Some e) ->
    finalVersion state (git_version h (newGit h (flag_pkg h)) commitID) = [] /\
    main h = Printed (Join (linkFlags goVersion commitID state []) (b " ")) /\
    (commitID <> [] ->
     main h = Printed (linkFlag goVersion (b "gitCommit") commitID
                       ++ b " " ++ linkFlag goVersion (b "gitTreeState") state)).
Proof.
  intros h goVersion commitID state out e P G C T V.
  assert (F : finalVersion state (git_version h (newGit h (flag_pkg h)) commitID) = [])
    by (rewrite V; reflexivity).
  assert (M : main h = Printed (Join (linkFlags goVersion commitID state []) (b " ")))
    by (unfold main; rewrite P, G, C, T, F; reflexivity).
  repeat split; auto.
  intros Ne. rewrite M. destruct commitID; [congruence|reflexivity].
Qed.

Lemma main_describe_failure_witness :
  main (sample_host go_1_21 describe_no_tags)
  = Printed (b "-X github.com/gravitational/version.gitCommit=0123456789abcdef0123456789abcdef01234567 -X github.com/gravitational/version.gitTreeState=clean").
Proof.
  refine (proj2 (proj2 (main_describe_failure
            (sample_host go_1_21 describe_no_tags) 31%Z sample_commit clean
            (b "fatal: No names found, cannot describe anything." ++ [nl])
            (mkToolError (b "git")
               (b "fatal: No names found, cannot describe anything." ++ [nl])
               (ExitError 128))
            _ _ _ _ _)) _);
    [vm_compute; reflexivity .. | discriminate].
Defined.

(** C4 (as the code has it).  When the [go version] command fails,
    [goToolVersion] returns the sentinel with an error and the run is
    fatal.  When its output cannot be parsed, [goToolVersion] returns the
    sentinel without an error: the run is not aborted for it, goes on
    with the encoded version 0, and prints its settings in the legacy
    syntax. *)
Theorem tool_version_failure :
  forall h : Host,
    is_empty (flag_pkg h) = false ->
    (forall out e,
        CombinedOutput h (b "go") [b "version"] = (out, Some e) ->
        goToolVersion h = Ret (toolVersionUnknown, Some (mkToolError (b "go") out e)) /\
        main h = Fatal (GoToolVersionFailed (mkToolError (b "go") out e)))
    /\
    (forall out,
        CombinedOutput h (b "go") [b "version"] = (out, None) ->
        unparseable out ->
        goToolVersion h = Ret (toolVersionUnknown, None) /\
        (forall e, main h <> Fatal (GoToolVersionFailed e)) /\
        (forall commitID state,
            git_commitID h (newGit h (flag_pkg h)) = (commitID, None) ->
            git_treeState h (newGit h (flag_pkg h)) = (state, None) ->
            main h =
            Printed (Join (linkFlags toolVersionUnknown commitID state
                             (finalVersion state
                                (git_version h (newGit h (flag_pkg h)) commitID)))
                          (b " "))) /\
        (forall key value,
            linkFlag toolVersionUnknown key value
            = b "-X " ++ versionPackage ++ b "." ++ key ++ b " " ++ value)).
Proof.
  intros h P. split.
  - intros out e C.
    assert (G : goToolVersion h
                = Ret (toolVersionUnknown, Some (mkToolError (b "go") out e)))
      by (unfold goToolVersion; rewrite C; reflexivity).
    split; [exact G|]. unfold main. rewrite P, G. reflexivity.
  - intros out C U. pose proof (goToolVersion_unparseable h out C U) as G.
    split; [exact G|]. split; [|split].
    + intros e. unfold main. rewrite P, G.
      destruct (git_commitID h _) as [commitID [e1|]]; [discriminate|].
      destruct (git_treeState h _) as [state [e2|]]; discriminate.
    + intros commitID state Ec Et. unfold main. rewrite P, G, Ec, Et.
      reflexivity.
    + intros key value. reflexivity.
Qed.

Lemma tool_version_failure_witness :
  main (sample_host go_missing describe_tagged)
  = Fatal (GoToolVersionFailed (mkToolError (b "go") [] StartError))
  /\
  main (sample_host go_devel describe_tagged)
  = Printed (b "-X github.com/gravitational/version.gitCommit 0123456789abcdef0123456789abcdef01234567 -X github.com/gravitational/version.gitTreeState clean -X github.com/gravitational/version.version v1.2.0").
Proof.
  split.
  - apply (proj1 (tool_version_failure (sample_host go_missing describe_tagged)
                    eq_refl)).
    reflexivity.
  - destruct (proj2 (tool_version_failure (sample_host go_devel describe_tagged)
                       eq_refl)
                (fst go_devel) eq_refl) as (_ & _ & M & _).
    + vm_compute. reflexivity.
    + rewrite (M sample_commit clean); vm_compute; reflexivity.
Defined.

(** C4 fails as stated: with a [go version] output whose version field
    is [devel] the detector returns the sentinel without an error, and
    the run is not fatal: it prints its settings. *)
Lemma unparseable_tool_version_not_fatal :
  goToolVersion (sample_host go_devel describe_tagged)
  = Ret (toolVersionUnknown, None)
  /\
  main (sample_host go_devel describe_tagged)
  = Printed (b "-X github.com/gravitational/version.gitCommit 0123456789abcdef0123456789abcdef01234567 -X github.com/gravitational/version.gitTreeState clean -X github.com/gravitational/version.version v1.2.0").
Proof.
  split; vm_compute; reflexivity.
Qed.

(** * Further properties of the code *)

(** ** [semverify] *)

Lemma not_nl_false c : not_nl c = false -> c = nl.
Proof.
  unfold not_nl. intros E. apply negb_false_iff in E.
  apply Ascii.eqb_eq. exact E.
Qed.

(** A match starts at the head of a line. *)
Lemma semverify_matched_line s st' :
  search semverPattern s 0 = Some st' ->
  exists q P N H,
    s = q ++ describe_string P N H /\ line_start q /\
    P <> [] /\ one_line P /\ decimal N /\ hash14 H /\
    semverify s = P ++ b "." ++ N ++ b "+" ++ H.
Proof.
  intros S. destruct (search_inv _ _ _ _ S) as (i & st & L & Before & Here & ->).
  apply semver_anchored_sound in Here as (P & N & H & E & Pne & OP & DN & HH & ->).
  assert (Lq : length (firstn i s) = i) by (rewrite length_firstn; lia).
  assert (Es : s = firstn i s ++ describe_string P N H)
    by (rewrite <- E; symmetry; apply firstn_skipn).
  exists (firstn i s), P, N, H. repeat split; try assumption;
    try (apply DN || apply HH).
  - destruct (firstn i s) as [|c0 q0] eqn:Eq; [left; reflexivity|right].
    destruct (@exists_last _ (c0 :: q0)) as (q' & c & Ec); [discriminate|].
    exists q'. rewrite Ec. f_equal. f_equal.
    destruct (not_nl c) eqn:Nc; [exfalso|apply not_nl_false; exact Nc].
    rewrite Ec in Es, Lq. rewrite length_app in Lq. simpl in Lq.
    assert (J : length q' < i) by lia.
    pose proof (Before (length q') J) as B.
    assert (Sk : skipn (length q') s = describe_string (c :: P) N H).
    { rewrite Es at 1. rewrite <- app_assoc, skipn_length_app. reflexivity. }
    rewrite Sk in B.
    assert (OP' : one_line (c :: P))
      by (unfold one_line; cbn [forallb]; rewrite Nc; exact OP).
    pose proof (semver_anchored_complete (c :: P) N H (0 + length q')
                  ltac:(discriminate) OP' DN HH) as C.
    rewrite B in C. discriminate.
  - apply (semverify_of_match s (firstn i s) P N H 0); auto; [|apply HH].
    rewrite S, Lq. reflexivity.
Qed.

(** X1.  [semverify] returns the empty string for the empty string
    only: a described version never becomes empty. *)
Theorem semverify_empty_iff :
  forall s : bytes, semverify s = [] <-> s = [].
Proof.
  intros s. split.
  - destruct (search semverPattern s 0) as [st|] eqn:S.
    + apply semverify_matched in S as (q & P & N & H & _ & Pne & _ & _ & _ & ->).
      destruct P; [congruence|discriminate].
    + rewrite (semverify_unmatched s S). auto.
  - intros ->. reflexivity.
Qed.

(** X2.  [semverify] either returns its input as it is, or its input
    is [q ++ <prefix>-<N>-g<H>] with [q] empty or ending in a newline and
    the result is [<prefix>.<N>+<H>]: one line, strictly shorter than the
    input. *)
Theorem semverify_cases :
  forall s : bytes,
    semverify s = s \/
    exists q P N H,
      s = q ++ describe_string P N H /\ line_start q /\
      P <> [] /\ one_line P /\ decimal N /\ hash14 H /\
      semverify s = P ++ b "." ++ N ++ b "+" ++ H /\
      one_line (semverify s) /\
      length (semverify s) + 1 + length q = length s.
Proof.
  intros s. destruct (search semverPattern s 0) as [st|] eqn:S.
  - right.
    apply semverify_matched_line in S
      as (q & P & N & H & E & Q & Pne & OP & DN & HH & R).
    exists q, P, N, H. repeat split; try assumption;
      try (apply DN || apply HH).
    + rewrite R. unfold one_line. rewrite !forallb_app, OP.
      rewrite (forallb_impl_bytes is_digit not_nl N digit_not_nl (proj2 DN)).
      rewrite (forallb_impl_bytes is_hex not_nl H hex_not_nl (proj2 HH)).
      reflexivity.
    + rewrite R, E. unfold describe_string. rewrite !length_app. simpl. lia.
  - left. apply semverify_unmatched. exact S.
Qed.

(** X3.  When the last line of the input has the shape
    [<prefix>-<N>-g<H>], everything before that line is dropped: the
    result is that of the last line alone. *)
Theorem semverify_keeps_last_line :
  forall before P N H : bytes,
    P <> [] -> one_line P -> decimal N -> hash14 H ->
    semverify (before ++ [nl] ++ describe_string P N H)
    = P ++ b "." ++ N ++ b "+" ++ H
    /\ semverify (before ++ [nl] ++ describe_string P N H)
       = semverify (describe_string P N H).
Proof.
  intros before P N H Pne OP DN HH.
  assert (A : semverify (before ++ [nl] ++ describe_string P N H)
              = P ++ b "." ++ N ++ b "+" ++ H).
  { rewrite app_assoc. apply semverify_last_line; auto.
    right. exists before. reflexivity. }
  split; [exact A|]. rewrite A. symmetry.
  apply (semverify_last_line [] P N H); auto; left; reflexivity.
Qed.

Lemma semverify_keeps_last_line_witness :
  semverify (b "warning: tag 'v1' is really 'v1.2.0' here" ++ [nl]
               ++ describe_string (b "v1.2.0") (b "3") (b "0123456789abcd"))
  = b "v1.2.0.3+0123456789abcd".
Proof.
  apply (semverify_keeps_last_line
           (b "warning: tag 'v1' is really 'v1.2.0' here")
           (b "v1.2.0") (b "3") (b "0123456789abcd")).
  - discriminate.
  - reflexivity.
  - split; [discriminate|reflexivity].
  - split; reflexivity.
Defined.

(** Two readings [x ++ sep :: N] of one string with no [sep] in [N]
    are the same reading. *)
Lemma split_at_last_sep (p : ascii -> bool) (sep : ascii) (x x' N N' : bytes) :
  p sep = false -> forallb p N = true -> forallb p N' = true ->
  x ++ sep :: N = x' ++ sep :: N' -> x = x' /\ N = N'.
Proof.
  intros Sp. revert x' N N'.
  induction x as [|a x IH]; intros x' N N' DN DN' E.
  - destruct x' as [|a' x']; cbn [app] in E.
    + injection E as ->. auto.
    + injection E as <- E. exfalso. rewrite E in DN.
      rewrite forallb_app in DN. cbn [forallb] in DN.
      rewrite Sp, andb_false_r in DN. discriminate.
  - destruct x' as [|a' x']; cbn [app] in E.
    + injection E as -> E. exfalso. rewrite <- E in DN'.
      rewrite forallb_app in DN'. cbn [forallb] in DN'.
      rewrite Sp, andb_false_r in DN'. discriminate.
    + injection E as -> E. destruct (IH _ _ _ DN DN' E) as [-> ->]. auto.
Qed.

(** X4.  On strings [<prefix>-<N>-g<H>] whose prefix is non-empty and
    holds no newline, with [N] one or more decimal digits and [H] exactly
    14 lower-case hexadecimal digits, [semverify] is one to one: the
    prefix, the count and the hash can be read back from the result. *)
Theorem semverify_injective :
  forall P N H P' N' H' : bytes,
    P <> [] -> one_line P -> decimal N -> hash14 H ->
    P' <> [] -> one_line P' -> decimal N' -> hash14 H' ->
    semverify (describe_string P N H) = semverify (describe_string P' N' H') ->
    P = P' /\ N = N' /\ H = H'.
Proof.
  intros P N H P' N' H' Pne OP DN HH Pne' OP' DN' HH' E.
  assert (R : semverify (describe_string P N H) = P ++ b "." ++ N ++ b "+" ++ H)
    by (apply (semverify_last_line [] P N H); auto; left; reflexivity).
  assert (R' : semverify (describe_string P' N' H')
               = P' ++ b "." ++ N' ++ b "+" ++ H')
    by (apply (semverify_last_line [] P' N' H'); auto; left; reflexivity).
  rewrite R, R' in E.
  assert (E1 : (P ++ b "." ++ N ++ b "+") ++ H = (P' ++ b "." ++ N' ++ b "+") ++ H')
    by (rewrite <- !app_assoc; exact E).
  apply app_same_length_tail in E1 as [E1 ->];
    [|rewrite (proj1 HH), (proj1 HH'); reflexivity].
  assert (E2 : (P ++ b "." ++ N) ++ b "+" = (P' ++ b "." ++ N') ++ b "+")
    by (rewrite <- !app_assoc; exact E1).
  apply app_same_length_tail in E2 as [E2 _]; [|reflexivity].
  destruct (split_at_last_sep is_digit "." P P' N N' eq_refl
              (proj2 DN) (proj2 DN') E2) as [-> ->].
  auto.
Qed.

Lemma semverify_injective_witness :
  b "v1" = b "v1" /\ b "12" = b "12" /\ b "0123456789abcd" = b "0123456789abcd".
Proof.
  apply (semverify_injective (b "v1") (b "12") (b "0123456789abcd")
                             (b "v1") (b "12") (b "0123456789abcd"));
    try discriminate; try reflexivity;
    (split; [discriminate || reflexivity | reflexivity]).
Defined.

(** ** [mustAtoi] and [parseToolVersion] *)

Lemma FindStringSubmatch_goVersion_inv s whole major minor :
  FindStringSubmatch goVersionPattern s = [whole; major; minor] ->
  exists d,
    major = [d] /\ is_digit19 d = true /\ decimal minor /\
    goToken s = Some (d, minor).
Proof.
  intros F. pose proof (FindStringSubmatch_goVersion s) as G.
  destruct (goToken s) as [[d ds]|] eqn:T.
  - destruct G as [whole' G]. rewrite G in F. injection F as _ <- <-.
    destruct (goToken_sound _ _ _ T) as [D DS]. exists d. auto.
  - rewrite G in F. discriminate.
Qed.

Lemma wrap_above z :
  (maxInt < z <= maxInt + 2 ^ 64)%Z -> wrap z = (z - 2 ^ 64)%Z.
Proof.
  unfold wrap, maxInt. intros R.
  replace (z + 2 ^ 63)%Z with ((z + 2 ^ 63 - 2 ^ 64) + 1 * 2 ^ 64)%Z by lia.
  rewrite Z_mod_plus_full, Z.mod_small; lia.
Qed.

(** The value [parseToolVersion] returns for a token whose minor
    number [strconv.Atoi] accepts. *)
Lemma parseToolVersion_token_value s d ds :
  goToken s = Some (d, ds) ->
  (digits_value ds <= maxInt)%Z ->
  exists v,
    parseToolVersion s = Ret v /\
    ((v = digit_value d * 10 + digits_value ds /\ 10 <= v)%Z
     \/ (v = digit_value d * 10 + digits_value ds - 2 ^ 64 /\ v < 0)%Z).
Proof.
  intros G R. destruct (goToken_sound _ _ _ G) as [D DS].
  pose proof (digit19_value d D) as Vd.
  pose proof (digits_value_bounds ds (proj2 DS)) as Vs.
  rewrite parseToolVersion_goToken, G, (mustAtoi_major d D).
  unfold mustAtoi. rewrite (Atoi_decimal ds DS).
  replace (digits_value ds <=? maxInt)%Z with true
    by (symmetry; apply Z.leb_le; lia).
  cbn [bind]. eexists. split; [reflexivity|].
  destruct (Z_le_gt_dec (digit_value d * 10 + digits_value ds) maxInt) as [Le|Gt].
  - left. rewrite wrap_in_range by (unfold minInt; lia). lia.
  - right. rewrite wrap_above by (unfold maxInt in *; lia).
    unfold maxInt in *. lia.
Qed.

Lemma parseToolVersion_token_panic s d ds :
  goToken s = Some (d, ds) ->
  (maxInt < digits_value ds)%Z ->
  parseToolVersion s = Panic.
Proof.
  intros G R. destruct (goToken_sound _ _ _ G) as [D DS].
  rewrite parseToolVersion_goToken, G, (mustAtoi_major d D).
  unfold mustAtoi. rewrite (Atoi_decimal ds DS).
  replace (digits_value ds <=? maxInt)%Z with false
    by (symmetry; apply Z.leb_gt; lia).
  reflexivity.
Qed.

(** X5.  On a non-empty run of decimal digits [mustAtoi] returns the
    value of the digits when it is at most 2^63-1 and panics when it is
    larger. *)
Theorem mustAtoi_decimal :
  forall ds : bytes,
    decimal ds ->
    ((digits_value ds <= maxInt)%Z -> mustAtoi ds = Ret (digits_value ds)) /\
    ((maxInt < digits_value ds)%Z -> mustAtoi ds = Panic).
Proof.
  intros ds DS. unfold mustAtoi. rewrite (Atoi_decimal ds DS). split; intros R.
  - replace (digits_value ds <=? maxInt)%Z with true
      by (symmetry; apply Z.leb_le; lia).
    reflexivity.
  - replace (digits_value ds <=? maxInt)%Z with false
      by (symmetry; apply Z.leb_gt; lia).
    reflexivity.
Qed.

Lemma mustAtoi_decimal_witness :
  mustAtoi (b "9223372036854775807") = Ret 9223372036854775807%Z
  /\ mustAtoi (b "9223372036854775808") = Panic.
Proof.
  assert (D1 : decimal (b "9223372036854775807"))
    by (split; [discriminate|reflexivity]).
  assert (D2 : decimal (b "9223372036854775808"))
    by (split; [discriminate|reflexivity]).
  split.
  - rewrite (proj1 (mustAtoi_decimal _ D1)).
    + vm_compute. reflexivity.
    + vm_compute. discriminate.
  - apply (proj2 (mustAtoi_decimal _ D2)). vm_compute. reflexivity.
Defined.

(** X6.  [parseToolVersion] panics exactly when the pattern matches
    and the value of the minor group is above 2^63-1. *)
Theorem parseToolVersion_panic_iff :
  forall s : bytes,
    parseToolVersion s = Panic <->
    exists whole major minor,
      FindStringSubmatch goVersionPattern s = [whole; major; minor] /\
      (maxInt < digits_value minor)%Z.
Proof.
  intros s. pose proof (FindStringSubmatch_goVersion s) as F. split.
  - intros P. destruct (goToken s) as [[d ds]|] eqn:G.
    + destruct F as [whole F]. exists whole, [d], ds. split; [exact F|].
      destruct (Z_le_gt_dec (digits_value ds) maxInt) as [Le|Gt]; [|lia].
      destruct (parseToolVersion_token_value s d ds G Le) as (v & E & _).
      rewrite E in P. discriminate.
    + rewrite parseToolVersion_goToken, G in P. discriminate.
  - intros (whole & major & minor & E & R).
    apply FindStringSubmatch_goVersion_inv in E as (d & _ & _ & _ & G).
    apply (parseToolVersion_token_panic s d minor G R).
Qed.

(** X7.  Whatever the input, [parseToolVersion] returns the sentinel 0
    exactly when the pattern does not match, and it never returns a
    value from 1 to 9. *)
Theorem parseToolVersion_sentinel_iff :
  forall s : bytes,
    (parseToolVersion s = Ret toolVersionUnknown
     <-> FindStringSubmatch goVersionPattern s = [])
    /\ (forall v, parseToolVersion s = Ret v -> ~ (1 <= v <= 9)%Z).
Proof.
  intros s. pose proof (FindStringSubmatch_goVersion s) as F.
  destruct (goToken s) as [[d ds]|] eqn:G.
  - destruct F as [whole F]. rewrite F.
    destruct (Z_le_gt_dec (digits_value ds) maxInt) as [Le|Gt].
    + destruct (parseToolVersion_token_value s d ds G Le) as (v & E & V).
      rewrite E. unfold toolVersionUnknown. split.
      * split; [|discriminate]. intros [= ->]. lia.
      * intros v' [= <-]. lia.
    + rewrite (parseToolVersion_token_panic s d ds G) by lia.
      split; [split; discriminate|discriminate].
  - rewrite parseToolVersion_goToken, G, F. split.
    + split; reflexivity.
    + intros v [= <-]. unfold toolVersionUnknown. lia.
Qed.

Lemma digit_value_one d : is_digit19 d = true -> digit_value d = 1%Z -> d = "1"%char.
Proof.
  destruct d as [[] [] [] [] [] [] [] []]; vm_compute; congruence.
Qed.

(** X8.  For a tool version whose minor number is well inside the
    range of [int], the encoded value is at most 14, which selects the
    legacy syntax, exactly for the versions [go1.0] to [go1.4]. *)
Theorem legacy_syntax_iff_go_1_4 :
  forall s whole major minor : bytes,
    FindStringSubmatch goVersionPattern s = [whole; major; minor] ->
    (digits_value minor <= maxInt - 90)%Z ->
    exists v : toolVersion,
      parseToolVersion s = Ret v /\
      ((v <= 14)%Z <-> major = b "1" /\ (digits_value minor <= 4)%Z).
Proof.
  intros s whole major minor E R.
  apply FindStringSubmatch_goVersion_inv in E as (d & -> & D & DS & G).
  pose proof (digit19_value d D) as Vd.
  pose proof (digits_value_bounds minor (proj2 DS)) as Vs.
  destruct (parseToolVersion_in_range s d minor G ltac:(lia)) as [P _].
  eexists. split; [exact P|]. split.
  - intros V. assert (D1 : digit_value d = 1%Z) by lia.
    rewrite (digit_value_one d D D1). split; [reflexivity|lia].
  - intros [[= ->] M]. change (digit_value "1") with 1%Z. lia.
Qed.

Lemma legacy_syntax_iff_go_1_4_witness :
  exists v : toolVersion,
    parseToolVersion (b "go1.21.3") = Ret v /\
    ((v <= 14)%Z <-> b "1" = b "1" /\ (digits_value (b "21") <= 4)%Z).
Proof.
  apply (legacy_syntax_iff_go_1_4 (b "go1.21.3") (b "go1.21.3") (b "1") (b "21")).
  - vm_compute. reflexivity.
  - vm_compute. discriminate.
Defined.

(** ** [goToolVersion] *)

Lemma Split_no_space f : no_space f -> Split f " " = [f].
Proof.
  unfold no_space. induction f as [|c f IH]; cbn [Split forallb]; intros N.
  - reflexivity.
  - apply andb_prop in N as [Nc N]. apply negb_true_iff in Nc.
    rewrite Nc, (IH N). reflexivity.
Qed.

Lemma Split_field f t :
  no_space f -> Split (f ++ " "%char :: t) " " = f :: Split t " ".
Proof.
  unfold no_space. induction f as [|c f IH]; cbn [Split forallb app]; intros N.
  - reflexivity.
  - apply andb_prop in N as [Nc N]. apply negb_true_iff in Nc.
    rewrite Nc, (IH N). reflexivity.
Qed.

Lemma Split_first_field f rest :
  no_space f -> field_end rest -> exists more, Split (f ++ rest) " " = f :: more.
Proof.
  intros N E. destruct rest as [|c rest].
  - rewrite app_nil_r, (Split_no_space f N). eauto.
  - simpl in E. subst c. rewrite (Split_field f rest N). eauto.
Qed.

Lemma length_Split s : length (Split s " ") = S (spaces s).
Proof.
  unfold spaces. induction s as [|c s IH]; [reflexivity|].
  cbn [Split count_occ]. destruct (Ascii.eqb c " ") eqn:E.
  - apply Ascii.eqb_eq in E. subst c.
    destruct (ascii_dec " " " "); [|congruence]. simpl. rewrite IH. reflexivity.
  - apply Ascii.eqb_neq in E.
    destruct (ascii_dec c " "); [congruence|].
    destruct (Split s " ") as [|x xs]; simpl in *; lia.
Qed.

Lemma goToolVersion_fields h f0 f1 f2 rest :
  CombinedOutput h (b "go") [b "version"]
  = (f0 ++ b " " ++ f1 ++ b " " ++ f2 ++ rest, None) ->
  no_space f0 -> no_space f1 -> no_space f2 -> field_end rest ->
  goToolVersion h = (v <- parseToolVersion f2 ;; Ret (v, None)).
Proof.
  intros C N0 N1 N2 E. unfold goToolVersion. rewrite C.
  change (b " ") with [" "%char]. cbn [app].
  rewrite (Split_field f0 _ N0), (Split_field f1 _ N1).
  destruct (Split_first_field f2 rest N2 E) as [more ->]. reflexivity.
Qed.

(** X9.  [goToolVersion] parses the third space-separated field of the
    output of [go version], whatever the first two fields and whatever
    follows: its result is that of [parseToolVersion] on that field,
    without an error. *)
Theorem goToolVersion_third_field :
  forall (h : Host) (f0 f1 f2 rest : bytes),
    CombinedOutput h (b "go") [b "version"]
    = (f0 ++ b " " ++ f1 ++ b " " ++ f2 ++ rest, None) ->
    no_space f0 -> no_space f1 -> no_space f2 -> field_end rest ->
    goToolVersion h = (v <- parseToolVersion f2 ;; Ret (v, None)).
Proof.
  intros h f0 f1 f2 rest. apply goToolVersion_fields.
Qed.

Lemma goToolVersion_third_field_witness :
  goToolVersion (sample_host go_1_21 describe_tagged) = Ret (31%Z, None).
Proof.
  rewrite (goToolVersion_third_field (sample_host go_1_21 describe_tagged)
             (b "go") (b "version") (b "go1.21.3") (b " linux/amd64" ++ [nl]));
    reflexivity.
Defined.

(** X10.  When [go version] succeeds with fewer than two spaces in its
    output there is no third field, and [goToolVersion] returns the
    sentinel without an error and without parsing anything. *)
Theorem goToolVersion_few_fields :
  forall (h : Host) (out : bytes),
    CombinedOutput h (b "go") [b "version"] = (out, None) ->
    spaces out < 2 ->
    goToolVersion h = Ret (toolVersionUnknown, None).
Proof.
  intros h out C S. unfold goToolVersion. rewrite C.
  pose proof (length_Split out) as L.
  destruct (Split out " ") as [|x0 [|x1 [|x2 xs]]]; try reflexivity.
  simpl in L. lia.
Qed.

Lemma goToolVersion_few_fields_witness :
  goToolVersion (sample_host (b "go1.99999999999999999999 linux", None)
                             describe_tagged)
  = Ret (toolVersionUnknown, None).
Proof.
  apply (goToolVersion_few_fields _ (b "go1.99999999999999999999 linux")).
  - reflexivity.
  - vm_compute. lia.
Defined.

Lemma token_string_no_space d ds tl :
  is_digit19 d = true -> decimal ds -> no_space tl ->
  no_space (token_string d ds tl).
Proof.
  intros D [_ DS] T. unfold no_space, token_string.
  rewrite !forallb_app. rewrite T.
  assert (Hd : forall c, is_digit c = true -> negb (Ascii.eqb c " ") = true)
    by (intros c; by_bits c).
  rewrite (forallb_impl_bytes is_digit _ ds Hd DS).
  cbn. rewrite andb_true_r.
  revert D. by_bits d.
Qed.

(** X11.  For the output [go version go<d>.<minor><suffix> ...] of a Go
    release, with one major digit from 1 to 9 and an encoded value within
    the range of [int], [goToolVersion] returns [d*10 + minor] without an
    error. *)
Theorem goToolVersion_release :
  forall (h : Host) (d : ascii) (ds tl rest : bytes),
    CombinedOutput h (b "go") [b "version"]
    = (b "go version " ++ token_string d ds tl ++ rest, None) ->
    is_digit19 d = true -> decimal ds ->
    no_digit_ahead tl -> no_space tl -> field_end rest ->
    (digit_value d * 10 + digits_value ds <= maxInt)%Z ->
    goToolVersion h = Ret ((digit_value d * 10 + digits_value ds)%Z, None).
Proof.
  intros h d ds tl rest C D DS Tl Ts E R.
  assert (G : goToken (token_string d ds tl) = Some (d, ds))
    by (apply goToken_here, token_at_complete; assumption).
  destruct (parseToolVersion_in_range _ d ds G R) as [P _].
  rewrite (goToolVersion_fields h (b "go") (b "version")
             (token_string d ds tl) rest C); auto; try reflexivity.
  - rewrite P. reflexivity.
  - apply token_string_no_space; assumption.
Qed.

Lemma goToolVersion_release_witness :
  goToolVersion (sample_host go_1_21 describe_tagged) = Ret (31%Z, None).
Proof.
  apply (goToolVersion_release (sample_host go_1_21 describe_tagged)
           "1"%char (b "21") (b ".3") (b " linux/amd64" ++ [nl])).
  - reflexivity.
  - reflexivity.
  - split; [discriminate|reflexivity].
  - reflexivity.
  - reflexivity.
  - reflexivity.
  - vm_compute. discriminate.
Defined.

(** ** The git queries and [main] *)

(** The command line of a git query on the package [pkg]. *)
Lemma git_exec_newGit h pkg a :
  git_exec h (newGit h pkg) a =
  match CombinedOutput h (b "git")
          ([b "--work-tree"; pkg; b "--git-dir"; filepath_Join h pkg (b ".git")]
             ++ a) with
  | (out, None) => (TrimSpace h out, None)
  | (out, Some e) => (out, Some (mkToolError (b "git") out e))
  end.
Proof. reflexivity. Qed.

(** X12.  A tree-state query that succeeds returns [clean] or [dirty],
    [clean] exactly when the trimmed output of [git status --porcelain]
    is empty; one that fails returns the empty state with the error of
    the [git] command and its untrimmed output. *)
Theorem git_treeState_values :
  forall (h : Host) (pkg out : bytes) (failure : option execError),
    CombinedOutput h (b "git")
      [b "--work-tree"; pkg; b "--git-dir"; filepath_Join h pkg (b ".git");
       b "status"; b "--porcelain"] = (out, failure) ->
    match failure with
    | None =>
        (TrimSpace h out = [] /\ git_treeState h (newGit h pkg) = (clean, None))
        \/ (TrimSpace h out <> [] /\ git_treeState h (newGit h pkg) = (dirty, None))
    | Some e =>
        git_treeState h (newGit h pkg) = ([], Some (mkToolError (b "git") out e))
    end.
Proof.
  intros h pkg out failure C. unfold git_treeState.
  rewrite git_exec_newGit. cbn [app]. rewrite C.
  destruct failure as [e|]; [reflexivity|].
  destruct (TrimSpace h out) as [|c t]; [left|right]; split;
    (reflexivity || discriminate).
Qed.

Lemma git_treeState_values_witness :
  (TrimSpace (sample_host go_1_21 describe_tagged) [] = [] /\
   git_treeState (sample_host go_1_21 describe_tagged)
                 (newGit (sample_host go_1_21 describe_tagged) (b "/src/pkg"))
   = (clean, None))
  \/
  (TrimSpace (sample_host go_1_21 describe_tagged) [] <> [] /\
   git_treeState (sample_host go_1_21 describe_tagged)
                 (newGit (sample_host go_1_21 describe_tagged) (b "/src/pkg"))
   = (dirty, None)).
Proof.
  apply (git_treeState_values (sample_host go_1_21 describe_tagged)
           (b "/src/pkg") [] None).
  reflexivity.
Defined.

(** X13.  The run prints its settings exactly when the package path is
    not empty and the tool version, the commit ID and the tree state are
    obtained without an error or a panic; the describe query has no part
    in it. *)
Theorem main_prints_iff :
  forall h : Host,
    (exists line, main h = Printed line) <->
    (is_empty (flag_pkg h) = false /\
     (exists goVersion, goToolVersion h = Ret (goVersion, None)) /\
     (exists commitID, git_commitID h (newGit h (flag_pkg h)) = (commitID, None)) /\
     (exists state, git_treeState h (newGit h (flag_pkg h)) = (state, None))).
Proof.
  intros h. unfold main. split.
  - intros [line M].
    destruct (is_empty (flag_pkg h)); [discriminate|].
    destruct (goToolVersion h) as [[goVersion [e|]]|]; try discriminate.
    destruct (git_commitID h _) as [commitID [e|]]; try discriminate.
    destruct (git_treeState h _) as [state [e|]]; try discriminate.
    repeat split; eauto.
  - intros (P & [goVersion G] & [commitID C] & [state T]).
    rewrite P, G, C, T. eauto.
Qed.

(** X14.  A commit ID that cannot be resolved is fatal once the tool
    version is known: the diagnostic carries the tool [git] and the
    untrimmed output of [git rev-parse], and neither the tree state nor
    the describe query changes the outcome. *)
Theorem main_commitID_failure :
  forall (h : Host) (goVersion : toolVersion) (out : bytes) (e : execError),
    is_empty (flag_pkg h) = false ->
    goToolVersion h = Ret (goVersion, None) ->
    CombinedOutput h (b "git")
      [b "--work-tree"; flag_pkg h; b "--git-dir";
       filepath_Join h (flag_pkg h) (b ".git");
       b "rev-parse"; b "HEAD^{commit}"] = (out, Some e) ->
    main h = Fatal (CommitIDFailed (mkToolError (b "git") out e)).
Proof.
  intros h goVersion out e P G C. unfold main. rewrite P, G.
  unfold git_commitID. rewrite git_exec_newGit. cbn [app]. rewrite C.
  reflexivity.
Qed.

Lemma main_commitID_failure_witness :
  main host_no_repository
  = Fatal (CommitIDFailed
             (mkToolError (b "git") (b "fatal: not a git repository" ++ [nl])
                          (ExitError 128))).
Proof.
  apply (main_commitID_failure host_no_repository 31%Z); reflexivity.
Defined.

(** X15.  When the third field of the output of [go version] matches
    the pattern with a minor number above 2^63-1, the whole run panics:
    it prints no setting and no diagnostic of its own. *)
Theorem main_panics_on_long_minor :
  forall (h : Host) (f0 f1 f2 rest whole major minor : bytes),
    is_empty (flag_pkg h) = false ->
    CombinedOutput h (b "go") [b "version"]
    = (f0 ++ b " " ++ f1 ++ b " " ++ f2 ++ rest, None) ->
    no_space f0 -> no_space f1 -> no_space f2 -> field_end rest ->
    FindStringSubmatch goVersionPattern f2 = [whole; major; minor] ->
    (maxInt < digits_value minor)%Z ->
    goToolVersion h = Panic /\ main h = Panicked.
Proof.
  intros h f0 f1 f2 rest whole major minor P C N0 N1 N2 E F R.
  apply FindStringSubmatch_goVersion_inv in F as (d & _ & _ & _ & G).
  assert (GP : goToolVersion h = Panic).
  { rewrite (goToolVersion_fields h f0 f1 f2 rest C N0 N1 N2 E).
    rewrite (parseToolVersion_token_panic f2 d minor G R). reflexivity. }
  split; [exact GP|]. unfold main. rewrite P, GP. reflexivity.
Qed.

Lemma main_panics_on_long_minor_witness :
  goToolVersion
    (sample_host (b "go version go1.99999999999999999999 linux/amd64", None)
                 describe_tagged) = Panic
  /\ main (sample_host (b "go version go1.99999999999999999999 linux/amd64", None)
                       describe_tagged) = Panicked.
Proof.
  apply (main_panics_on_long_minor _ (b "go") (b "version")
           (b "go1.99999999999999999999") (b " linux/amd64")
           (b "go1.99999999999999999999") (b "1") (b "99999999999999999999"));
    vm_compute; reflexivity.
Defined.

(** X16.  The final version is empty exactly when the describe query
    failed or printed nothing; so the [version] setting is left out in
    those cases only. *)
Theorem finalVersion_empty_iff :
  forall (state : treeState) (out : bytes) (failure : option toolError),
    finalVersion state (out, failure) = [] <->
    (failure <> None \/ out = []).
Proof.
  intros state out failure. unfold finalVersion.
  destruct failure as [e|].
  - cbn. split; [left; discriminate|reflexivity].
  - destruct out as [|c out].
    + cbn. split; [right; reflexivity|reflexivity].
    + cbn [is_empty negb]. split.
      * intros E. exfalso.
        assert (S : semverify (c :: out) = []).
        { destruct (bytes_eqb state dirty); [|exact E].
          destruct (semverify (c :: out)); [reflexivity|discriminate]. }
        destruct (search semverPattern (c :: out) 0) as [st|] eqn:M.
        -- apply semverify_matched in M
             as (q & P & N & H & _ & Pne & _ & _ & _ & R).
           rewrite R in S. destruct P; [congruence|discriminate].
        -- rewrite (semverify_unmatched _ M) in S. discriminate.
      * intros [F|F]; [congruence|discriminate].
Qed.

Lemma Join_last (l : list bytes) (x sep : bytes) :
  ends_with (Join (l ++ [x]) sep) x.
Proof.
  induction l as [|a l IH].
  - exists []. reflexivity.
  - destruct IH as [front E]. cbn [app Join].
    destruct (l ++ [x]) as [|y ys] eqn:L; [destruct l; discriminate|].
    exists (a ++ sep ++ front). rewrite E, <- !app_assoc. reflexivity.
Qed.

(** X17.  On a dirty tree with a described version the printed line
    ends with the [version] setting, whose value is the normalized
    version followed by [-dirty]; so the line itself ends with
    [-dirty]. *)
Theorem main_dirty_line :
  forall (h : Host) (goVersion : toolVersion) (commitID out : bytes),
    is_empty (flag_pkg h) = false ->
    goToolVersion h = Ret (goVersion, None) ->
    git_commitID h (newGit h (flag_pkg h)) = (commitID, None) ->
    git_treeState h (newGit h (flag_pkg h)) = (dirty, None) ->
    git_version h (newGit h (flag_pkg h)) commitID = (out, None) ->
    out <> [] ->
    exists line,
      main h = Printed line /\
      ends_with line (linkFlag goVersion (b "version") (semverify out ++ b "-dirty")) /\
      ends_with line (b "-dirty").
Proof.
  intros h goVersion commitID out P G C T V Ne.
  assert (F : finalVersion dirty (out, None) = semverify out ++ b "-dirty")
    by (destruct out; [congruence|reflexivity]).
  eexists. split; [unfold main; rewrite P, G, C, T, V, F; reflexivity|].
  assert (Nv : is_empty (semverify out ++ b "-dirty") = false)
    by (destruct (semverify out); reflexivity).
  assert (L : ends_with
                (Join (linkFlags goVersion commitID dirty (semverify out ++ b "-dirty"))
                      (b " "))
                (linkFlag goVersion (b "version") (semverify out ++ b "-dirty"))).
  { unfold linkFlags. rewrite Nv. cbn [negb]. apply Join_last. }
  split; [exact L|].
  destruct L as [front ->].
  unfold linkFlag. destruct (goVersion <=? 14)%Z.
  - exists (front ++ b "-X " ++ versionPackage ++ b "." ++ b "version" ++ b " "
              ++ semverify out).
    rewrite <- !app_assoc. reflexivity.
  - exists (front ++ b "-X " ++ versionPackage ++ b "." ++ b "version" ++ b "="
              ++ semverify out).
    rewrite <- !app_assoc. reflexivity.
Qed.

Lemma main_dirty_line_witness :
  exists line,
    main host_dirty = Printed line /\
    ends_with line
      (linkFlag 31%Z (b "version")
                (semverify (b "v1.2.0-3-g0123456789abcd") ++ b "-dirty")) /\
    ends_with line (b "-dirty").
Proof.
  apply (main_dirty_line host_dirty 31%Z sample_commit
           (b "v1.2.0-3-g0123456789abcd"));
    try (vm_compute; reflexivity).
  discriminate.
Defined.
